(** * KingAltmann: the reaction network of [KingAltmann.py]

    A shallow embedding of the classes [Enzymestate], [ReactionRate],
    [UnitReaction], [BiDirReaction] and [Reactions], followed by the
    properties of the network that the specification states.

    Conventions of the embedding.
    - A sympy symbol is determined by its name: the records hold the names
      of the symbols, and comparing and printing symbols is comparing and
      printing names.  [symbols] gives the name of the symbol that sympy
      builds from a text, where the text denotes one symbol.
    - A Python exception is a value of [exn]; a method that may raise
      returns a [result].  A method that mutates [self] takes the network
      and returns the network it leaves behind together with its result,
      so that what an exception leaves behind is visible.
    - The objects of a Python list are told apart by the slot they sit in:
      [enumerate] pairs every element with its slot. *)

From Stdlib Require Import Ascii.
From stdpp Require Import base list strings.

Open Scope string_scope.
Open Scope list_scope.
Open Scope nat_scope.

(** ** Exceptions *)

Inductive exn : Type :=
| AttributeError (msg : string)
| IndexError (msg : string)
| ValueError (msg : string)
| TypeError (msg : string).

Definition result (A : Type) : Type := exn + A.

Definition ret {A} (a : A) : result A := inr a.
Definition raise {A} (e : exn) : result A := inl e.

Definition bind {A B} (m : result A) (k : A → result B) : result B :=
  match m with
  | inl e => inl e
  | inr a => k a
  end.

Declare Scope result_scope.
Delimit Scope result_scope with result.
Notation "'let*' x ':=' m 'in' k" := (bind m (fun x => k))
  (at level 10, x pattern, m at level 100, k at level 200) : result_scope.
Open Scope result_scope.

(** The messages of the four [raise] statements of the module, and of the
    interpreter's own error for [l[0]] on an empty list. *)
Definition DuplicateRate : exn :=
  AttributeError "rate constant already defined".
Definition DuplicateRate_paired : exn :=
  AttributeError "Added a unitreaction with the same rate constant a second time".
Definition MultipleReverseReactions : exn :=
  AttributeError "more than 1 reverse Reaction defined".
Definition MultipleMatchingReactions : exn :=
  AttributeError "more than 1 reaction with identical reactants defined".
Definition list_index_out_of_range : exn :=
  IndexError "list index out of range".

(** ** Python lists *)

(** [enumerate(l)]: every element with its position. *)
Definition enumerate {A} (l : list A) : list (nat * A) := imap pair l.

(** [l[i]], which raises out of range. *)
Definition getitem {A} (l : list A) (i : nat) : result A :=
  match l !! i with
  | Some x => ret x
  | None => raise list_index_out_of_range
  end.

(** [l[i] = v], which raises out of range. *)
Definition setitem {A} (l : list A) (i : nat) (v : A) : result (list A) :=
  if decide (i < length l) then ret (<[i:=v]> l)
  else raise list_index_out_of_range.

(** [res[i][j] = v] on a list of rows. *)
Definition setitem2 {A} (res : list (list A)) (i j : nat) (v : A)
  : result (list (list A)) :=
  let* row := getitem res i in
  let* row' := setitem row j v in
  setitem res i row'.

(** [for x in l: s = body(x, s)], stopped by the first exception. *)
Fixpoint for_each {A S} (l : list A) (body : A → S → result S) (s : S)
  : result S :=
  match l with
  | [] => ret s
  | x :: l' => let* s' := body x s in for_each l' body s'
  end.

(** ** Symbols *)

(** The blanks of [str.strip] and [str.split] among the ASCII characters:
    tabulation to carriage return, the four separators 28 to 31, space. *)
Definition is_space (c : ascii) : bool :=
  let n := nat_of_ascii c in
  ((9 <=? n) && (n <=? 13)) || ((28 <=? n) && (n <=? 32)).

Fixpoint lstrip (s : string) : string :=
  match s with
  | "" => ""
  | String c s' => if is_space c then lstrip s' else s
  end.

Fixpoint rstrip (s : string) : string :=
  match s with
  | "" => ""
  | String c s' =>
      match rstrip s' with
      | "" => if is_space c then "" else String c ""
      | t => String c t
      end
  end.

(** [s.strip()] *)
Definition strip (s : string) : string := rstrip (lstrip s).

(** Whether the text holds one of the escapes of [symbols]: a backslash
    before a comma, a colon or a space. *)
Fixpoint has_escape (s : string) : bool :=
  match s with
  | "" => false
  | String c s' =>
      match s' with
      | String d _ =>
          (Ascii.eqb c "\"%char
           && (Ascii.eqb d ","%char || Ascii.eqb d ":"%char
               || Ascii.eqb d " "%char))
          || has_escape s'
      | "" => false
      end
  end.

(** [sympy.symbols(names)], as the name of the symbol it returns.  The
    text is stripped; a text that is then empty raises [ValueError]; a
    text without blank, comma or colon is the name of the one symbol
    returned.  The answer is [None] where sympy does something else, which
    the records of the embedding cannot hold: a text with an inner blank
    or a comma gives a sequence of symbols, a colon a range of symbols, an
    escape a symbol whose name has the escaped character; and a text with
    a character that is not ASCII is left out, its blanks being others. *)
Definition symbols (names : string) : option (result string) :=
  if negb (forallb (fun c => nat_of_ascii c <? 128)
             (String.list_ascii_of_string names))
  then None
  else if has_escape names then None
  else
    let names := strip names in
    if String.eqb names "" then Some (raise (ValueError "no symbols given"))
    else if existsb
              (fun c => is_space c || Ascii.eqb c ","%char
                        || Ascii.eqb c ":"%char)
              (String.list_ascii_of_string names)
    then None
    else Some (ret names).

(** ** Enzymestate *)

Record Enzymestate : Type := mkEnzymestate { enzyme : string }.

(** [Enzymestate(name)] *)
Definition Enzymestate_init (nm : string) : option (result Enzymestate) :=
  match symbols nm with
  | None => None
  | Some (inl e) => Some (raise e)
  | Some (inr n) => Some (ret (mkEnzymestate n))
  end.

Definition Enzymestate_str (e : Enzymestate) : string := enzyme e.

Definition Enzymestate_eq (self other : Enzymestate) : bool :=
  String.eqb (enzyme self) (enzyme other).

(** ** ReactionRate *)

Record ReactionRate : Type := mkReactionRate {
  name : string;
  reactant : option string
}.

(** [ReactionRate(name, pseudoFirstOrderReactant)]: the symbol of the name
    is built first; a reactant that is [None] or the empty string is falsy
    and leaves [reactant] unset, any other is passed to [symbols]. *)
Definition ReactionRate_init (nm : string)
    (pseudoFirstOrderReactant : option string)
  : option (result ReactionRate) :=
  match symbols nm with
  | None => None
  | Some (inl e) => Some (raise e)
  | Some (inr n) =>
      match pseudoFirstOrderReactant with
      | None | Some "" => Some (ret {| name := n; reactant := None |})
      | Some r =>
          match symbols r with
          | None => None
          | Some (inl e) => Some (raise e)
          | Some (inr q) => Some (ret {| name := n; reactant := Some q |})
          end
      end
  end.

(** [hash(self)]: the class defines [__eq__] and no [__hash__], so that
    Python sets its [__hash__] to [None] and [hash] raises. *)
Definition ReactionRate_hash (self : ReactionRate) : result Z :=
  raise (TypeError "unhashable type: 'ReactionRate'").

Definition ReactionRate_str (self : ReactionRate) : string :=
  match reactant self with
  | Some r => name self +:+ "[" +:+ r +:+ "]"
  | None => name self
  end.

Definition ReactionRate_eq (self other : ReactionRate) : bool :=
  String.eqb (name self) (name other).

(** ** UnitReaction *)

Record UnitReaction : Type := mkUnitReaction {
  from_state : Enzymestate;
  rate : ReactionRate;
  to_state : Enzymestate
}.

Definition UnitReaction_eq (self other : UnitReaction) : bool :=
  Enzymestate_eq (from_state self) (from_state other)
  && Enzymestate_eq (to_state self) (to_state other)
  && ReactionRate_eq (rate self) (rate other).

(** [f"{self.from_state} \t --{self.rate}--> \t {self.to_state}"], the
    escapes being tabulations. *)
Definition UnitReaction_str (self : UnitReaction) : string :=
  Enzymestate_str (from_state self) +:+ " " +:+ String "009"%char " --"
  +:+ ReactionRate_str (rate self) +:+ "--> " +:+ String "009"%char " "
  +:+ Enzymestate_str (to_state self).

(** ** BiDirReaction *)

Record BiDirReaction : Type := mkBiDirReaction {
  _fwd_reaction : UnitReaction;
  _rev_reaction : UnitReaction
}.

Definition contains_Rate (self : BiDirReaction) (r : option ReactionRate)
  : bool :=
  match r with
  | None => false
  | Some r =>
      ReactionRate_eq r (rate (_fwd_reaction self))
      || ReactionRate_eq r (rate (_rev_reaction self))
  end.

Definition contains_reaction (self : BiDirReaction)
    (reaction : option UnitReaction) : bool :=
  match reaction with
  | None => false
  | Some reaction =>
      UnitReaction_eq reaction (_fwd_reaction self)
      || UnitReaction_eq reaction (_rev_reaction self)
  end.

Definition BiDirReaction_str (self : BiDirReaction) : string :=
  ReactionRate_str (rate (_fwd_reaction self)) +:+ "//"
  +:+ ReactionRate_str (rate (_rev_reaction self)).

(** ** Reactions *)

Record Reactions : Type := mkReactions {
  _reactions : list UnitReaction;
  _enzymeStates : list Enzymestate;
  _bidirectionalRates : list BiDirReaction
}.

(** [Reactions()] *)
Definition Reactions_init : Reactions :=
  {| _reactions := []; _enzymeStates := []; _bidirectionalRates := [] |}.

Definition reaction_from_Rate (self : Reactions) (r : ReactionRate)
  : list UnitReaction :=
  List.filter (fun reac => ReactionRate_eq (rate reac) r) (_reactions self).

Definition reaction_from_Reactants (self : Reactions)
    (from_st to_st : Enzymestate) : result (option UnitReaction) :=
  let res :=
    List.filter
      (fun reaction =>
         Enzymestate_eq (from_state reaction) from_st
         && Enzymestate_eq (to_state reaction) to_st)
      (_reactions self) in
  if length res =? 0 then ret None
  else if 1 <? length res then raise MultipleMatchingReactions
  else let* r := getitem res 0 in ret (Some r).

Definition produced_by (self : Reactions) (e : Enzymestate)
  : list UnitReaction :=
  List.filter (fun react => Enzymestate_eq (to_state react) e)
    (_reactions self).

Definition consumed_by (self : Reactions) (e : Enzymestate)
  : list UnitReaction :=
  List.filter (fun react => Enzymestate_eq (from_state react) e)
    (_reactions self).

(** [as_text]: the string forms of the reactions, joined by newlines. *)
Definition as_text (self : Reactions) : string :=
  let res := fold_left (fun res reac => res ++ [UnitReaction_str reac])
               (_reactions self) [] in
  String.concat (String "010"%char "") res.

Definition reverse_Reaction (self : Reactions) (reaction : UnitReaction)
  : result (option UnitReaction) :=
  let fwdReaction := reaction in
  let fwdSub := from_state fwdReaction in
  let fwdProd := to_state fwdReaction in
  let reactions := consumed_by self fwdProd in
  let reverseReact :=
    List.filter (fun react => Enzymestate_eq (to_state react) fwdSub)
      reactions in
  if length reverseReact =? 0 then ret None
  else if length reverseReact =? 1 then
    let* r := getitem reverseReact 0 in ret (Some r)
  else raise MultipleReverseReactions.

(** [_add_enzymeStates]: the loop over [[u.from_state, u.to_state]]. *)
Definition _add_enzymeStates (u : UnitReaction) (self : Reactions)
  : Reactions :=
  fold_left
    (fun self e =>
       if negb (existsb (Enzymestate_eq e) (_enzymeStates self))
       then {| _reactions := _reactions self;
               _enzymeStates := _enzymeStates self ++ [e];
               _bidirectionalRates := _bidirectionalRates self |}
       else self)
    [from_state u; to_state u] self.

Definition _add_bidirectionalRates (reaction : UnitReaction)
    (self : Reactions) : Reactions * result unit :=
  if existsb (fun bi => contains_reaction bi (Some reaction))
       (_bidirectionalRates self)
  then (self, raise DuplicateRate_paired)
  else
    match reverse_Reaction self reaction with
    | inl e => (self, inl e)
    | inr None => (self, ret tt)
    | inr (Some reverseReaction) =>
        ({| _reactions := _reactions self;
            _enzymeStates := _enzymeStates self;
            _bidirectionalRates :=
              _bidirectionalRates self
              ++ [mkBiDirReaction reaction reverseReaction] |},
         ret tt)
    end.

Definition addReaction (reaction : UnitReaction) (self : Reactions)
  : Reactions * result unit :=
  if 0 <? length (reaction_from_Rate self (rate reaction))
  then (self, raise DuplicateRate)
  else
    let self :=
      {| _reactions := _reactions self ++ [reaction];
         _enzymeStates := _enzymeStates self;
         _bidirectionalRates := _bidirectionalRates self |} in
    let self := _add_enzymeStates reaction self in
    _add_bidirectionalRates reaction self.

(** The loader's loop: [addReaction] for each reaction in input order; an
    exception ends the loop and leaves the network as it then is. *)
Fixpoint addReactions (rs : list UnitReaction) (self : Reactions)
  : Reactions * result unit :=
  match rs with
  | [] => (self, ret tt)
  | r :: rs' =>
      match addReaction r self with
      | (self', inr _) => addReactions rs' self'
      | (self', inl e) => (self', inl e)
      end
  end.

(** [[[None for _ in states] for _ in states]] *)
Definition none_table {A} (self : Reactions) : list (list (option A)) :=
  map (fun _ => map (fun _ => None) (_enzymeStates self))
    (_enzymeStates self).

Definition kinetic_matrix (self : Reactions)
  : result (list (list (option ReactionRate))) :=
  for_each (enumerate (_enzymeStates self))
    (fun '(n_es1, es1) res =>
       for_each (enumerate (_enzymeStates self))
         (fun '(n_es2, es2) res =>
            let* reac := reaction_from_Reactants self es1 es2 in
            let _res :=
              match reac with
              | Some reac => Some (rate reac)
              | None => None
              end in
            setitem2 res n_es1 n_es2 _res)
         res)
    (none_table self).

(** A cell of the linear graph matrix refers to an object of
    [_bidirectionalRates]: the slot it sits in, and its contents. *)
Definition linear_graph_matrix (self : Reactions)
  : result (list (list (option (nat * BiDirReaction)))) :=
  let* kin_matrix := kinetic_matrix self in
  for_each (enumerate (_enzymeStates self))
    (fun '(n_es1, _) res =>
       for_each (enumerate (_enzymeStates self))
         (fun '(n_es2, _) res =>
            let* row := getitem kin_matrix n_es1 in
            let* cell := getitem row n_es2 in
            let* _res :=
              match cell with
              | None => ret None
              | Some _ =>
                  let* bi :=
                    getitem
                      (List.filter
                         (fun biDirect => contains_Rate biDirect.2 cell)
                         (enumerate (_bidirectionalRates self)))
                      0 in
                  ret (Some bi)
              end in
            setitem2 res n_es1 n_es2 _res)
         res)
    (none_table self).

(** ** Notions used to state the properties *)

(** The table cell [m[i][j]], with [None] for an absent cell. *)
Definition cell {A} (m : list (list (option A))) (i j : nat) : option A :=
  match m !! i with
  | Some row => match row !! j with Some c => c | None => None end
  | None => None
  end.

(** The ordered endpoints of a reaction. *)
Definition endpoints (r : UnitReaction) : Enzymestate * Enzymestate :=
  (from_state r, to_state r).

(** The reactions of the network from state [a] to state [b]. *)
Definition matching (self : Reactions) (a b : Enzymestate)
  : list UnitReaction :=
  List.filter
    (fun r => Enzymestate_eq (from_state r) a && Enzymestate_eq (to_state r) b)
    (_reactions self).

(** The bidirectional edges that have [r] as one of their legs. *)
Definition edges_containing (self : Reactions) (r : UnitReaction)
  : list BiDirReaction :=
  List.filter (fun bi => contains_reaction bi (Some r))
    (_bidirectionalRates self).

(** The state names met while reading the reactions in input order, source
    before destination. *)
Definition states_of (rs : list UnitReaction) : list Enzymestate :=
  flat_map (fun r => [from_state r; to_state r]) rs.

(** The order of first encounter: every element once, at the place of its
    first occurrence. *)
Fixpoint first_seen (l : list Enzymestate) : list Enzymestate :=
  match l with
  | [] => []
  | x :: l' =>
      x :: List.filter (fun y => negb (Enzymestate_eq y x)) (first_seen l')
  end.

(** One turn of the loop of [_add_enzymeStates] on the list of states. *)
Definition add_state (states : list Enzymestate) (e : Enzymestate)
  : list Enzymestate :=
  if existsb (Enzymestate_eq e) states then states else states ++ [e].

(** What every network built by [addReaction] satisfies: the names of the
    rates are pairwise distinct, the legs of every bidirectional edge are
    reactions of the network that run in opposite directions, and the
    endpoints of every reaction are among the states. *)
Record well_formed (self : Reactions) : Prop := {
  wf_rates : NoDup ((fun r => name (rate r)) <$> _reactions self);
  wf_edges : ∀ bi, bi ∈ _bidirectionalRates self →
    _fwd_reaction bi ∈ _reactions self
    ∧ _rev_reaction bi ∈ _reactions self
    ∧ from_state (_rev_reaction bi) = to_state (_fwd_reaction bi)
    ∧ to_state (_rev_reaction bi) = from_state (_fwd_reaction bi);
  wf_states : ∀ r, r ∈ _reactions self →
    from_state r ∈ _enzymeStates self ∧ to_state r ∈ _enzymeStates self
}.

(** What the body of the loops of [linear_graph_matrix] computes for the
    cell [i][j], from the kinetic matrix. *)
Definition linear_cell (self : Reactions)
    (kin_matrix : list (list (option ReactionRate))) (i j : nat)
  : result (option (nat * BiDirReaction)) :=
  let* row := getitem kin_matrix i in
  let* c := getitem row j in
  match c with
  | None => ret None
  | Some _ =>
      let* bi :=
        getitem
          (List.filter (fun biDirect => contains_Rate biDirect.2 c)
             (enumerate (_bidirectionalRates self)))
          0 in
      ret (Some bi)
  end.

(** Running the computations of a list in order, up to the first
    exception: the functional reading of a loop that fills a table. *)
Fixpoint traverse {A B} (f : A → result B) (l : list A) : result (list B) :=
  match l with
  | [] => ret []
  | x :: l' =>
      let* y := f x in
      let* ys := traverse f l' in
      ret (y :: ys)
  end.

(** The networks that calls of [addReaction] can build from [Reactions()],
    whether the calls return or raise. *)
Inductive reachable : Reactions → Prop :=
| reachable_init : reachable Reactions_init
| reachable_add self reaction :
    reachable self → reachable (addReaction reaction self).1.

(** The sum of the numbers that [f] gives for the elements of a list. *)
Definition sum_over {A} (f : A → nat) (l : list A) : nat :=
  foldr (fun x n => f x + n) 0 l.

(** ** Example networks *)

Definition E : Enzymestate := mkEnzymestate "E".
Definition EA : Enzymestate := mkEnzymestate "EA".
Definition R1 : UnitReaction :=
  mkUnitReaction E (mkReactionRate "k1" None) EA.
Definition R2 : UnitReaction :=
  mkUnitReaction EA (mkReactionRate "k-1" None) E.

(** The network after [addReaction(R1)], and after [addReaction(R2)] too. *)
Definition net_R1 : Reactions := (addReactions [R1] Reactions_init).1.
Definition net_R1_R2 : Reactions := (addReactions [R1; R2] Reactions_init).1.

(** A cycle A -> B -> C -> A without any reverse reaction. *)
Definition sA : Enzymestate := mkEnzymestate "A".
Definition sB : Enzymestate := mkEnzymestate "B".
Definition sC : Enzymestate := mkEnzymestate "C".
Definition cycle : list UnitReaction :=
  [mkUnitReaction sA (mkReactionRate "k1" None) sB;
   mkUnitReaction sB (mkReactionRate "k2" None) sC;
   mkUnitReaction sC (mkReactionRate "k3" None) sA].
Definition net_cycle : Reactions := (addReactions cycle Reactions_init).1.

(** A second reaction A -> B added after A -> B and B -> A. *)
Definition AB1 : UnitReaction := mkUnitReaction sA (mkReactionRate "k1" None) sB.
Definition BA2 : UnitReaction := mkUnitReaction sB (mkReactionRate "k2" None) sA.
Definition AB3 : UnitReaction := mkUnitReaction sA (mkReactionRate "k3" None) sB.
Definition parallel : list UnitReaction := [AB1; BA2; AB3].

(** Two reactions from a state to itself. *)
Definition loop0 : UnitReaction := mkUnitReaction sA (mkReactionRate "k0" None) sA.
Definition loop1 : UnitReaction := mkUnitReaction sA (mkReactionRate "k1" None) sA.
Definition net_loop0 : Reactions := (addReactions [loop0] Reactions_init).1.

Definition net_parallel : Reactions :=
  (addReactions parallel Reactions_init).1.

(** Reactions whose states are not met in alphabetical order. *)
Definition unsorted : list UnitReaction :=
  [mkUnitReaction sC (mkReactionRate "k1" (Some "S")) sA;
   mkUnitReaction sB (mkReactionRate "k2" None) sC;
   mkUnitReaction sA (mkReactionRate "k3" None) sC].
Definition net_unsorted : Reactions :=
  (addReactions unsorted Reactions_init).1.

(** * Properties *)

(** ** Equality of the value classes *)

Lemma Enzymestate_eq_true a b : Enzymestate_eq a b = true ↔ a = b.
Proof.
  unfold Enzymestate_eq. rewrite String.eqb_eq.
  destruct a, b; simpl. split; congruence.
Qed.

Lemma Enzymestate_eq_refl a : Enzymestate_eq a a = true.
Proof. by apply Enzymestate_eq_true. Qed.

Lemma ReactionRate_eq_true r1 r2 :
  ReactionRate_eq r1 r2 = true ↔ name r1 = name r2.
Proof. unfold ReactionRate_eq. apply String.eqb_eq. Qed.

Lemma UnitReaction_eq_true x y :
  UnitReaction_eq x y = true ↔
  from_state x = from_state y ∧ to_state x = to_state y
  ∧ name (rate x) = name (rate y).
Proof.
  unfold UnitReaction_eq.
  rewrite !andb_true_iff, !Enzymestate_eq_true, ReactionRate_eq_true.
  tauto.
Qed.

Lemma append_cancel_last (a b : string) c :
  a +:+ String c "" = b +:+ String c "" → a = b.
Proof.
  revert b. induction a as [|x a IH]; intros [|y b]; simpl; intros H.
  - done.
  - injection H as _ H. by destruct b.
  - injection H as _ H. by destruct a.
  - injection H as -> H. f_equal. by apply IH.
Qed.

Lemma append_eq_self (s t : string) : s +:+ t = s → t = "".
Proof.
  induction s as [|c s IH]; simpl; [done|]. intros [= H]. by apply IH.
Qed.

(** What [symbols] returns is the stripped text, which is not empty. *)
Lemma symbols_ret s n :
  symbols s = Some (ret n) → n = strip s ∧ n ≠ "".
Proof.
  unfold symbols. destruct (negb _); [done|].
  destruct (has_escape s); [done|].
  destruct (String.eqb_spec (strip s) "") as [|Hne]; [done|].
  destruct (existsb _ _); [done|]. by intros [= <-].
Qed.


(** The rate that the constructor returns. *)
Lemma ReactionRate_init_ret nm a r :
  ReactionRate_init nm a = Some (ret r) →
  name r = strip nm ∧ strip nm ≠ ""
  ∧ ((reactant r = None ∧ (a = None ∨ a = Some ""))
     ∨ (∃ p, a = Some p ∧ p ≠ "" ∧ strip p ≠ ""
             ∧ reactant r = Some (strip p))).
Proof.
  unfold ReactionRate_init.
  destruct (symbols nm) as [[e|n]|] eqn:Hn; [done| |done].
  apply symbols_ret in Hn as [-> Hne].
  destruct a as [[|c p]|].
  - intros [= <-]. simpl. split_and!; auto.
  - destruct (symbols (String c p)) as [[e|q]|] eqn:Hq; [done| |done].
    apply symbols_ret in Hq as [-> Hqe].
    intros [= <-]. simpl. split_and!; try done. right.
    by exists (String c p).
  - intros [= <-]. simpl. split_and!; auto.
Qed.

Lemma ReactionRate_str_eq_iff r1 r2 :
  name r1 = name r2 →
  ReactionRate_str r1 = ReactionRate_str r2 ↔ reactant r1 = reactant r2.
Proof.
  intros Hname. unfold ReactionRate_str. rewrite Hname.
  destruct (reactant r1) as [a|], (reactant r2) as [b|]; split; try done.
  - intros H. apply (inj (String.app (name r2))) in H.
    apply (inj (String.app "[")) in H.
    apply append_cancel_last in H. by subst.
  - by intros [= ->].
  - intros H. by apply append_eq_self in H.
  - intros H. symmetry in H. by apply append_eq_self in H.
Qed.

(** C9, as the code has it. Equality of rates reads the name only, and
    the class has no hashing: [hash] of a rate raises.  Two rates built
    from the same name, each with any reactant, are equal and compare
    alike with every rate; their string forms agree only if their
    reactants do.  [ReactionRate("k1","A")] and [ReactionRate("k1","B")]
    are equal and print as [k1[A]] and [k1[B]]. *)
Theorem ReactionRate_eq_name_only nm a b r1 r2 :
  ReactionRate_init nm a = Some (ret r1) →
  ReactionRate_init nm b = Some (ret r2) →
  ReactionRate_eq r1 r2 = true
  ∧ (∀ other, ReactionRate_eq r1 other = ReactionRate_eq r2 other)
  ∧ (ReactionRate_str r1 = ReactionRate_str r2 ↔ reactant r1 = reactant r2)
  ∧ (∀ x y, ReactionRate_eq x y = true ↔ name x = name y)
  ∧ (∀ x, ReactionRate_hash x
          = raise (TypeError "unhashable type: 'ReactionRate'"))
  ∧ ReactionRate_init "k1" (Some "A")
    = Some (ret (mkReactionRate "k1" (Some "A")))
  ∧ ReactionRate_init "k1" (Some "B")
    = Some (ret (mkReactionRate "k1" (Some "B")))
  ∧ ReactionRate_eq (mkReactionRate "k1" (Some "A"))
      (mkReactionRate "k1" (Some "B")) = true
  ∧ ReactionRate_str (mkReactionRate "k1" (Some "A")) = "k1[A]"
  ∧ ReactionRate_str (mkReactionRate "k1" (Some "B")) = "k1[B]".
Proof.
  intros (Hn1 & _ & _)%ReactionRate_init_ret
         (Hn2 & _ & _)%ReactionRate_init_ret.
  assert (name r1 = name r2) as Hname by congruence.
  split_and!; try done.
  - by apply ReactionRate_eq_true.
  - intros other. unfold ReactionRate_eq. by rewrite Hname.
  - by apply ReactionRate_str_eq_iff.
  - apply ReactionRate_eq_true.
Qed.

Lemma ReactionRate_eq_name_only_witness :
  ReactionRate_init "k1" (Some "A")
  = Some (ret (mkReactionRate "k1" (Some "A")))
  ∧ ReactionRate_init "k1" (Some " B")
    = Some (ret (mkReactionRate "k1" (Some "B")))
  ∧ ReactionRate_eq (mkReactionRate "k1" (Some "A"))
      (mkReactionRate "k1" (Some "B")) = true
  ∧ (∀ other,
       ReactionRate_eq (mkReactionRate "k1" (Some "A")) other
       = ReactionRate_eq (mkReactionRate "k1" (Some "B")) other)
  ∧ (ReactionRate_str (mkReactionRate "k1" (Some "A"))
     = ReactionRate_str (mkReactionRate "k1" (Some "B")) ↔
     reactant (mkReactionRate "k1" (Some "A"))
     = reactant (mkReactionRate "k1" (Some "B")))
  ∧ (∀ x y, ReactionRate_eq x y = true ↔ name x = name y)
  ∧ (∀ x, ReactionRate_hash x
          = raise (TypeError "unhashable type: 'ReactionRate'"))
  ∧ ReactionRate_init "k1" (Some "A")
    = Some (ret (mkReactionRate "k1" (Some "A")))
  ∧ ReactionRate_init "k1" (Some "B")
    = Some (ret (mkReactionRate "k1" (Some "B")))
  ∧ ReactionRate_eq (mkReactionRate "k1" (Some "A"))
      (mkReactionRate "k1" (Some "B")) = true
  ∧ ReactionRate_str (mkReactionRate "k1" (Some "A")) = "k1[A]"
  ∧ ReactionRate_str (mkReactionRate "k1" (Some "B")) = "k1[B]".
Proof.
  assert (ReactionRate_init "k1" (Some "A")
          = Some (ret (mkReactionRate "k1" (Some "A")))) as H1
    by reflexivity.
  assert (ReactionRate_init "k1" (Some " B")
          = Some (ret (mkReactionRate "k1" (Some "B")))) as H2
    by reflexivity.
  split; [exact H1|]. split; [exact H2|].
  exact (ReactionRate_eq_name_only "k1" (Some "A") (Some " B") _ _ H1 H2).
Defined.

(** No rate has a hash, and the constructor refuses a blank reactant: the
    two rates of the claim cannot be hashed, alike or otherwise. *)
Lemma ReactionRate_unhashable :
  ReactionRate_init "k1" (Some "A")
  = Some (ret (mkReactionRate "k1" (Some "A")))
  ∧ ReactionRate_init "k1" (Some "B")
    = Some (ret (mkReactionRate "k1" (Some "B")))
  ∧ ¬ (∃ h, ReactionRate_hash (mkReactionRate "k1" (Some "A")) = ret h
            ∧ ReactionRate_hash (mkReactionRate "k1" (Some "B")) = ret h)
  ∧ ReactionRate_init "k1" (Some " ")
    = Some (raise (ValueError "no symbols given")).
Proof.
  split_and!; try reflexivity. by intros (h & [=] & _).
Qed.

(** ** Filtering with a boolean test *)

Lemma elem_of_filter_bool {A} (f : A → bool) (l : list A) x :
  x ∈ List.filter f l ↔ x ∈ l ∧ f x = true.
Proof. rewrite !list_elem_of_In. apply filter_In. Qed.

Lemma filter_filter_bool {A} (f g : A → bool) (l : list A) :
  List.filter f (List.filter g l) = List.filter (fun x => g x && f x) l.
Proof.
  induction l as [|x l IH]; simpl; [done|].
  destruct (g x) eqn:Hg; simpl; [|done].
  destruct (f x); by rewrite IH.
Qed.

Lemma filter_bool_nil {A} (f : A → bool) (l : list A) :
  List.filter f l = [] ↔ ∀ x, x ∈ l → f x = false.
Proof.
  induction l as [|y l IH]; simpl.
  - split; [|done]. intros _ x Hx. by apply elem_of_nil in Hx.
  - destruct (f y) eqn:Hy.
    + split; [done|]. intros H. specialize (H y (list_elem_of_here _ _)).
      congruence.
    + rewrite IH. split.
      * intros H x [->|Hx]%elem_of_cons; auto.
      * intros H x Hx. apply H. by apply list_elem_of_further.
Qed.

Lemma NoDup_filter_bool {A} (f : A → bool) (l : list A) :
  NoDup l → NoDup (List.filter f l).
Proof.
  induction 1 as [|x l Hx Hl IH]; simpl; [constructor|].
  destruct (f x); [|done].
  constructor; [|done]. rewrite elem_of_filter_bool. tauto.
Qed.

(** At most one element of a list passes a test that pins down the value
    of a key the elements do not share. *)
Lemma filter_key_unique {A K} (key : A → K) (f : A → bool) (k : K)
    (l : list A) :
  NoDup (key <$> l) →
  (∀ x, f x = true → key x = k) →
  length (List.filter f l) ≤ 1.
Proof.
  intros Hnd Hf. induction l as [|x l IH]; simpl; [lia|].
  apply NoDup_cons in Hnd as [Hx Hnd].
  destruct (f x) eqn:Hfx; [|by apply IH].
  assert (List.filter f l = []) as ->; [|simpl; lia].
  apply filter_bool_nil. intros y Hy.
  destruct (f y) eqn:Hfy; [|done].
  exfalso. apply Hx. rewrite (Hf x Hfx), <- (Hf y Hfy).
  by apply list_elem_of_fmap_2.
Qed.

(** ** The lookups of the network *)

Lemma reverse_Reaction_matching self reaction :
  reverse_Reaction self reaction =
  match matching self (to_state reaction) (from_state reaction) with
  | [] => ret None
  | [r] => ret (Some r)
  | _ :: _ :: _ => raise MultipleReverseReactions
  end.
Proof.
  unfold reverse_Reaction, consumed_by, matching.
  rewrite filter_filter_bool.
  by destruct (List.filter _ _) as [|r [|r' l]].
Qed.

Lemma reaction_from_Reactants_matching self a b :
  reaction_from_Reactants self a b =
  match matching self a b with
  | [] => ret None
  | [r] => ret (Some r)
  | _ :: _ :: _ => raise MultipleMatchingReactions
  end.
Proof.
  unfold reaction_from_Reactants, matching.
  by destruct (List.filter _ _) as [|r [|r' l]].
Qed.

Lemma elem_of_matching self a b r :
  r ∈ matching self a b ↔
  r ∈ _reactions self ∧ from_state r = a ∧ to_state r = b.
Proof.
  unfold matching.
  rewrite elem_of_filter_bool, andb_true_iff, !Enzymestate_eq_true. tauto.
Qed.

(** C6. The reverse of a reaction from A to B is looked up among exactly
    the reactions of the network from B to A, the reactions consumed by B
    that lead to A: none of them gives [None], a single one is returned,
    two or more raise the error of several reverse reactions. *)
Theorem reverse_Reaction_cases self reaction :
  List.filter (fun react => Enzymestate_eq (to_state react) (from_state reaction))
    (consumed_by self (to_state reaction))
  = matching self (to_state reaction) (from_state reaction)
  ∧ (∀ r, r ∈ matching self (to_state reaction) (from_state reaction) ↔
          r ∈ _reactions self
          ∧ from_state r = to_state reaction
          ∧ to_state r = from_state reaction)
  ∧ reverse_Reaction self reaction =
    match matching self (to_state reaction) (from_state reaction) with
    | [] => ret None
    | [r] => ret (Some r)
    | _ :: _ :: _ => raise MultipleReverseReactions
    end.
Proof.
  split_and!.
  - unfold consumed_by, matching. apply filter_filter_bool.
  - intros r. apply elem_of_matching.
  - apply reverse_Reaction_matching.
Qed.

(** ** Rejection of a rate that is already defined *)

Lemma reaction_from_Rate_nil self r :
  reaction_from_Rate self r = [] ↔
  ∀ x, x ∈ _reactions self → name (rate x) ≠ name r.
Proof.
  unfold reaction_from_Rate. rewrite filter_bool_nil.
  apply forall_proper; intros x. apply forall_proper; intros _.
  rewrite <- ReactionRate_eq_true. by destruct (ReactionRate_eq _ _).
Qed.

(** C5. A reaction whose rate bears the name of the rate of a registered
    reaction is refused with the error of a rate already defined, and the
    network the call leaves behind is the network it was given: reactions,
    states and bidirectional edges alike. *)
Theorem addReaction_duplicate_rate self reaction :
  (∃ r, r ∈ _reactions self ∧ name (rate r) = name (rate reaction)) →
  addReaction reaction self = (self, raise DuplicateRate).
Proof.
  intros (r & Hr & Hname). unfold addReaction.
  destruct (reaction_from_Rate self (rate reaction)) as [|x l] eqn:Hl;
    [|done].
  exfalso. eapply reaction_from_Rate_nil in Hl; eauto.
Qed.

Lemma addReaction_duplicate_rate_witness :
  (∃ r, r ∈ _reactions net_R1_R2
        ∧ name (rate r)
          = name (rate (mkUnitReaction EA (mkReactionRate "k1" (Some "B")) E)))
  ∧ addReaction (mkUnitReaction EA (mkReactionRate "k1" (Some "B")) E)
      net_R1_R2
    = (net_R1_R2, raise DuplicateRate).
Proof.
  assert (∃ r, r ∈ _reactions net_R1_R2
        ∧ name (rate r)
          = name (rate (mkUnitReaction EA (mkReactionRate "k1" (Some "B")) E)))
    as H.
  { exists R1. split; [left|reflexivity]. }
  split; [exact H|].
  exact (addReaction_duplicate_rate net_R1_R2
           (mkUnitReaction EA (mkReactionRate "k1" (Some "B")) E) H).
Defined.

(** ** Loops that fill a table cell by cell *)

Lemma for_each_ext {A S} (f g : A → S → result S) (l : list A) (s : S) :
  (∀ x s, f x s = g x s) → for_each l f s = for_each l g s.
Proof.
  intros Hfg. revert s. induction l as [|x l IH]; intros s; simpl; [done|].
  rewrite Hfg. destruct (g x s); simpl; [done|]. apply IH.
Qed.

Lemma traverse_ext {A B} (f g : A → result B) (l : list A) :
  (∀ x, f x = g x) → traverse f l = traverse g l.
Proof.
  intros Hfg. induction l as [|x l IH]; simpl; [done|].
  by rewrite Hfg, IH.
Qed.

Lemma setitem2_in_range {A} (res : list (list A)) (row : list A) i j v :
  res !! i = Some row → j < length row →
  setitem2 res i j v = ret (<[i:=<[j:=v]> row]> res).
Proof.
  intros Hrow Hj. unfold setitem2, getitem, setitem. rewrite Hrow. simpl.
  rewrite decide_True by done. simpl.
  rewrite decide_True; [done|]. by eapply lookup_lt_Some.
Qed.

(** The inner loop over the columns [n, n+1, ...] of row [i] leaves the
    table with the computed values in these columns of row [i], or raises
    what the first failing cell raises. *)
Lemma for_each_row {St X} (F : nat → St → result (option X)) (i : nat)
    (body : nat * St → list (list (option X)) → result (list (list (option X)))) :
  (∀ j b res, body (j, b) res = let* v := F j b in setitem2 res i j v) →
  ∀ (l : list St) (n : nat) (res : list (list (option X))) row,
    res !! i = Some row →
    length row = n + length l →
    for_each (imap (fun k x => (n + k, x)) l) body res
    = let* vs := traverse (fun '(j, b) => F j b)
                   (imap (fun k x => (n + k, x)) l) in
      ret (<[i:=take n row ++ vs]> res).
Proof.
  intros Hbody l. induction l as [|x l IH]; intros n res row Hrow Hlen.
  - simpl in *. rewrite app_nil_r, take_ge by lia.
    by rewrite list_insert_id.
  - simpl in *. rewrite Hbody, Nat.add_0_r.
    destruct (F n x) as [e|v]; simpl; [done|].
    rewrite (setitem2_in_range res row) by (done || lia). simpl.
    rewrite (imap_ext _ (fun k x => (S n + k, x)))
      by (intros; simpl; f_equal; lia).
    rewrite (IH (S n) _ (<[n:=v]> row)).
    + destruct (traverse _ _) as [e|vs]; simpl; [done|].
      rewrite list_insert_insert_eq. do 2 f_equal.
      rewrite (take_S_r _ _ v) by (apply list_lookup_insert_eq; lia).
      rewrite take_insert_ge by lia. by rewrite <- app_assoc.
    + apply list_lookup_insert_eq. by eapply lookup_lt_Some.
    + rewrite length_insert. lia.
Qed.

(** The two nested loops over the states fill the table row by row: they
    return the table of the computed cells, or raise what the first failing
    cell in row-major order raises. *)
Lemma for_each_table {St X} (cols : list St)
    (F : nat → St → nat → St → result (option X))
    (body : nat * St → list (list (option X)) → result (list (list (option X)))) :
  (∀ i a res,
     body (i, a) res
     = for_each (enumerate cols)
         (fun '(j, b) res => let* v := F i a j b in setitem2 res i j v) res) →
  ∀ (l : list St) (n : nat) (res : list (list (option X))),
    length res = n + length l →
    (∀ k row, n ≤ k → res !! k = Some row → length row = length cols) →
    for_each (imap (fun k x => (n + k, x)) l) body res
    = let* rows :=
        traverse
          (fun '(i, a) => traverse (fun '(j, b) => F i a j b) (enumerate cols))
          (imap (fun k x => (n + k, x)) l) in
      ret (take n res ++ rows).
Proof.
  intros Hbody l. induction l as [|x l IH]; intros n res Hlen Hrows.
  - simpl in *. rewrite app_nil_r, take_ge by lia. done.
  - simpl in *. rewrite Hbody, Nat.add_0_r.
    destruct (lookup_lt_is_Some_2 res n) as [row Hrow]; [lia|].
    unfold enumerate.
    rewrite (for_each_row (F n x) n _ (fun _ _ _ => eq_refl) cols 0 res row)
      by (done || (simpl; eauto)).
    destruct (traverse _ (imap _ cols)) as [e|vs]; simpl; [done|].
    rewrite (imap_ext _ (fun k x => (S n + k, x)))
      by (intros; simpl; f_equal; lia).
    rewrite IH.
    + destruct (traverse _ _) as [e|rows]; simpl; [done|].
      f_equal.
      rewrite (take_S_r _ _ vs)
        by (apply list_lookup_insert_eq; by eapply lookup_lt_Some).
      rewrite take_insert_ge by lia. by rewrite <- app_assoc.
    + rewrite length_insert. lia.
    + intros k row' Hk. rewrite list_lookup_insert_ne by lia.
      apply Hrows. lia.
Qed.

Lemma none_table_shape {A} self :
  length (none_table (A:=A) self) = length (_enzymeStates self)
  ∧ ∀ k row, none_table (A:=A) self !! k = Some row →
             length row = length (_enzymeStates self).
Proof.
  unfold none_table. split; [by rewrite length_map|].
  intros k row Hrow.
  change (map ?f ?l) with (f <$> l) in Hrow.
  rewrite list_lookup_fmap in Hrow.
  destruct (_ !! k); simplify_eq/=. by rewrite length_map.
Qed.

(** [kinetic_matrix] as a traversal of the ordered pairs of states. *)
Lemma kinetic_matrix_traverse self :
  kinetic_matrix self
  = traverse
      (fun '(_, a) =>
         traverse
           (fun '(_, b) =>
              let* reac := reaction_from_Reactants self a b in
              ret (rate <$> reac))
           (enumerate (_enzymeStates self)))
      (enumerate (_enzymeStates self)).
Proof.
  unfold kinetic_matrix.
  destruct (none_table_shape (A:=ReactionRate) self) as [Hlen Hrows].
  pose (F := fun (_ : nat) a (_ : nat) b =>
               let* reac := reaction_from_Reactants self a b in
               ret (rate <$> reac)).
  unfold enumerate at 1 3.
  rewrite (for_each_table (_enzymeStates self) F) with (n := 0).
  - by destruct (traverse _ _) as [e|rows].
  - intros i a res. apply for_each_ext. intros [j b] res'. unfold F.
    by destruct (reaction_from_Reactants self a b) as [e|[r|]].
  - simpl. lia.
  - intros k row _. apply Hrows.
Qed.

Lemma traverse_imap {A B C} (f : C → result B) (g : nat → A → C)
    (h : A → result B) (l : list A) :
  (∀ k x, f (g k x) = h x) → traverse f (imap g l) = traverse h l.
Proof.
  revert g. induction l as [|x l IH]; intros g Hg; simpl; [done|].
  rewrite Hg, (IH (g ∘ S)); [done|]. intros k y. apply Hg.
Qed.

Lemma traverse_checked {A B} (f : A → result B) (ok : A → bool)
    (g : A → B) (e : exn) (l : list A) :
  (∀ x, f x = if ok x then ret (g x) else raise e) →
  traverse f l = if forallb ok l then ret (map g l) else raise e.
Proof.
  intros Hf. induction l as [|x l IH]; simpl; [done|].
  rewrite Hf, IH. destruct (ok x); simpl; [|done].
  by destruct (forallb ok l).
Qed.

(** The table [kinetic_matrix] returns, and the condition under which it
    returns: no two reactions between the same ordered pair of states. *)
Lemma kinetic_matrix_table self :
  kinetic_matrix self
  = if forallb
         (fun a =>
            forallb (fun b => length (matching self a b) <=? 1)
              (_enzymeStates self))
         (_enzymeStates self)
    then ret (map
                (fun a =>
                   map (fun b => rate <$> head (matching self a b))
                     (_enzymeStates self))
                (_enzymeStates self))
    else raise MultipleMatchingReactions.
Proof.
  rewrite kinetic_matrix_traverse. unfold enumerate.
  rewrite (traverse_imap _ _
             (fun a =>
                traverse
                  (fun b =>
                     let* reac := reaction_from_Reactants self a b in
                     ret (rate <$> reac))
                  (_enzymeStates self))).
  - apply traverse_checked. intros a. apply traverse_checked. intros b.
    rewrite reaction_from_Reactants_matching.
    by destruct (matching self a b) as [|r [|r' l]].
  - intros k a. by apply traverse_imap.
Qed.

(** The shape and the cells of a kinetic matrix that is returned. *)
Lemma kinetic_matrix_ret self m :
  kinetic_matrix self = ret m →
  length m = length (_enzymeStates self)
  ∧ (∀ i row, m !! i = Some row → length row = length (_enzymeStates self))
  ∧ (∀ i j a b,
       _enzymeStates self !! i = Some a →
       _enzymeStates self !! j = Some b →
       length (matching self a b) ≤ 1
       ∧ cell m i j = rate <$> head (matching self a b)).
Proof.
  rewrite kinetic_matrix_table.
  destruct (forallb _ _) eqn:Hok; [|done]. intros [= <-].
  change (map ?f ?l) with (f <$> l).
  split_and!.
  - by rewrite length_fmap.
  - intros i row. rewrite list_lookup_fmap.
    destruct (_ !! i); intros [= <-]. by rewrite length_fmap.
  - intros i j a b Ha Hb. split.
    + rewrite forallb_forall in Hok.
      specialize (Hok a). rewrite forallb_forall in Hok.
      apply Nat.leb_le, Hok.
      * apply list_elem_of_In. by eapply list_elem_of_lookup_2.
      * apply list_elem_of_In. by eapply list_elem_of_lookup_2.
    + unfold cell. rewrite list_lookup_fmap, Ha. simpl.
      change (map ?f ?l) with (f <$> l).
      by rewrite list_lookup_fmap, Hb.
Qed.

(** C7. [reaction_from_Reactants] returns [None] when no reaction joins
    the two states in that order, the reaction when there is a single one,
    and raises the error of several matching reactions otherwise.
    [kinetic_matrix] asks it for every ordered pair of states, equal
    indices included: it raises that same error when some pair of states is
    joined by several reactions, and otherwise returns the table with one
    row and one column per state, in the order of the states, whose cell
    [i][j] is the rate of the reaction from state [i] to state [j] when
    there is one and is absent when there is none. *)
Theorem kinetic_matrix_cells self :
  (∀ a b,
     reaction_from_Reactants self a b =
     match matching self a b with
     | [] => ret None
     | [r] => ret (Some r)
     | _ :: _ :: _ => raise MultipleMatchingReactions
     end)
  ∧ kinetic_matrix self
    = (if forallb
            (fun a =>
               forallb (fun b => length (matching self a b) <=? 1)
                 (_enzymeStates self))
            (_enzymeStates self)
       then ret (map
                   (fun a =>
                      map (fun b => rate <$> head (matching self a b))
                        (_enzymeStates self))
                   (_enzymeStates self))
       else raise MultipleMatchingReactions)
  ∧ (∀ m, kinetic_matrix self = ret m →
       length m = length (_enzymeStates self)
       ∧ (∀ i row, m !! i = Some row →
            length row = length (_enzymeStates self))
       ∧ (∀ i j a b,
            _enzymeStates self !! i = Some a →
            _enzymeStates self !! j = Some b →
            length (matching self a b) ≤ 1
            ∧ cell m i j = rate <$> head (matching self a b))).
Proof.
  split_and!.
  - apply reaction_from_Reactants_matching.
  - apply kinetic_matrix_table.
  - apply kinetic_matrix_ret.
Qed.

(** ** One call of [addReaction] *)

Lemma add_enzymeStates_eq u self :
  _add_enzymeStates u self
  = {| _reactions := _reactions self;
       _enzymeStates :=
         add_state (add_state (_enzymeStates self) (from_state u))
           (to_state u);
       _bidirectionalRates := _bidirectionalRates self |}.
Proof.
  unfold _add_enzymeStates, add_state. simpl.
  destruct self as [rs sts es]; simpl.
  destruct (existsb (Enzymestate_eq (from_state u)) sts); simpl;
    by destruct (existsb (Enzymestate_eq (to_state u)) _).
Qed.

(** The network after the reaction and its states are appended, before the
    pairing. *)
Lemma addReaction_eq reaction self :
  addReaction reaction self =
  if 0 <? length (reaction_from_Rate self (rate reaction))
  then (self, raise DuplicateRate)
  else
    let s1 :=
      {| _reactions := _reactions self ++ [reaction];
         _enzymeStates :=
           add_state (add_state (_enzymeStates self) (from_state reaction))
             (to_state reaction);
         _bidirectionalRates := _bidirectionalRates self |} in
    if existsb (fun bi => contains_reaction bi (Some reaction))
         (_bidirectionalRates self)
    then (s1, raise DuplicateRate_paired)
    else
      match matching s1 (to_state reaction) (from_state reaction) with
      | [] => (s1, ret tt)
      | [v] =>
          ({| _reactions := _reactions s1;
              _enzymeStates := _enzymeStates s1;
              _bidirectionalRates :=
                _bidirectionalRates self ++ [mkBiDirReaction reaction v] |},
           ret tt)
      | _ :: _ :: _ => (s1, raise MultipleReverseReactions)
      end.
Proof.
  unfold addReaction.
  destruct (0 <? _) ; [done|].
  rewrite add_enzymeStates_eq. unfold _add_bidirectionalRates. simpl.
  destruct (existsb _ _); [done|].
  rewrite reverse_Reaction_matching. simpl.
  by destruct (matching _ _ _) as [|v [|v' l]].
Qed.

Lemma elem_of_add_state states e x :
  x ∈ add_state states e ↔ x ∈ states ∨ x = e.
Proof.
  unfold add_state. destruct (existsb _ _) eqn:Hex.
  - split; [by left|]. intros [H| ->]; [done|].
    apply existsb_exists in Hex as (y & Hy & Heq).
    apply Enzymestate_eq_true in Heq as ->. by apply list_elem_of_In.
  - rewrite elem_of_app, list_elem_of_singleton. done.
Qed.

(** A paired reaction has the rate name of a leg, which is a reaction of
    the network: a reaction with a new rate is in no edge. *)
Lemma new_rate_not_paired self reaction :
  well_formed self →
  reaction_from_Rate self (rate reaction) = [] →
  existsb (fun bi => contains_reaction bi (Some reaction))
    (_bidirectionalRates self) = false.
Proof.
  intros Hwf Hnew. apply not_true_is_false. intros Hex.
  apply existsb_exists in Hex as (bi & Hbi%list_elem_of_In & Hc).
  destruct (wf_edges _ Hwf bi Hbi) as (Hf & Hr & _).
  rewrite reaction_from_Rate_nil in Hnew.
  simpl in Hc. apply orb_true_iff in Hc as [Hc|Hc];
    apply UnitReaction_eq_true in Hc as (_ & _ & Hn).
  - by apply (Hnew _ Hf).
  - by apply (Hnew _ Hr).
Qed.

Lemma addReaction_well_formed reaction self :
  well_formed self → well_formed (addReaction reaction self).1.
Proof.
  intros Hwf. rewrite addReaction_eq.
  destruct (0 <? _) eqn:Hdup; [done|].
  assert (reaction_from_Rate self (rate reaction) = []) as Hnew.
  { destruct (reaction_from_Rate _ _); [done|]. simpl in Hdup. done. }
  set (s1 := {| _reactions := _reactions self ++ [reaction];
                _enzymeStates := _;
                _bidirectionalRates := _bidirectionalRates self |}).
  assert (well_formed s1) as Hwf1.
  { split; simpl.
    - rewrite fmap_app. apply NoDup_app. split_and!.
      + apply (wf_rates _ Hwf).
      + intros nm (x & -> & Hx)%list_elem_of_fmap Hnm.
        apply list_elem_of_fmap in Hnm as (y & Hnm & ->%list_elem_of_singleton).
        rewrite reaction_from_Rate_nil in Hnew. by apply (Hnew x).
      + apply NoDup_singleton.
    - intros bi Hbi. destruct (wf_edges _ Hwf bi Hbi) as (? & ? & ? & ?).
      rewrite !elem_of_app. auto.
    - intros r. rewrite elem_of_app, list_elem_of_singleton,
        !elem_of_add_state.
      intros [Hr| ->]; [|auto].
      destruct (wf_states _ Hwf r Hr). auto. }
  rewrite new_rate_not_paired by done. cbv zeta.
  destruct (matching s1 _ _) as [|v [|v' l]] eqn:Hm; [done| |done].
  assert (v ∈ matching s1 (to_state reaction) (from_state reaction)) as Hv
    by (rewrite Hm; left).
  apply elem_of_matching in Hv as (Hv & Hvf & Hvt).
  split; simpl.
  - apply (wf_rates _ Hwf1).
  - intros bi [Hbi| ->%list_elem_of_singleton]%elem_of_app.
    + apply (wf_edges _ Hwf1 bi Hbi).
    + simpl. split_and!; try done.
      rewrite elem_of_app, list_elem_of_singleton. auto.
  - apply (wf_states _ Hwf1).
Qed.

Lemma reachable_well_formed self : reachable self → well_formed self.
Proof.
  induction 1 as [|self reaction _ IH].
  - split; simpl.
    + apply NoDup_nil_2.
    + intros bi Hbi. by apply elem_of_nil in Hbi.
    + intros r Hr. by apply elem_of_nil in Hr.
  - by apply addReaction_well_formed.
Qed.

(** ** The linear graph matrix *)

Lemma traverse_raise {A B} (f : A → result B) (e : exn) (l : list A) x :
  (∀ y e', f y = raise e' → e' = e) →
  x ∈ l → f x = raise e →
  traverse f l = raise e.
Proof.
  intros Hall Hx Hfx. induction l as [|y l IH]; [by apply elem_of_nil in Hx|].
  simpl. destruct (f y) as [e'|b] eqn:Hfy; simpl.
  - by rewrite (Hall y e' Hfy).
  - apply elem_of_cons in Hx as [->|Hx]; [unfold raise in *; congruence|].
    by rewrite IH.
Qed.

Lemma traverse_raise_inv {A B} (f : A → result B) (e : exn) (l : list A) :
  traverse f l = raise e → ∃ x, x ∈ l ∧ f x = raise e.
Proof.
  induction l as [|y l IH]; simpl; [done|].
  destruct (f y) as [e'|b] eqn:Hfy; simpl.
  - intros [= ->]. exists y. split; [left|done].
  - destruct (traverse f l) as [e'|bs]; simpl; [|done].
    intros [= ->]. destruct IH as (x & Hx & Hfx); [done|].
    exists x. split; [by right|done].
Qed.

Lemma linear_graph_matrix_traverse self :
  linear_graph_matrix self
  = let* kin_matrix := kinetic_matrix self in
    traverse
      (fun '(i, _) =>
         traverse (fun '(j, _) => linear_cell self kin_matrix i j)
           (enumerate (_enzymeStates self)))
      (enumerate (_enzymeStates self)).
Proof.
  unfold linear_graph_matrix.
  destruct (kinetic_matrix self) as [e|kin]; simpl; [done|].
  destruct (none_table_shape (A:=nat * BiDirReaction) self) as [Hlen Hrows].
  pose (F := fun (i : nat) (_ : Enzymestate) (j : nat) (_ : Enzymestate) =>
               linear_cell self kin i j).
  unfold enumerate at 1 3.
  rewrite (for_each_table (_enzymeStates self) F) with (n := 0).
  - by destruct (traverse _ _) as [e|rows].
  - intros i a res. apply for_each_ext. intros [j b] res'.
    unfold F, linear_cell.
    destruct (getitem kin i) as [e|row]; simpl; [done|].
    by destruct (getitem row j) as [e|[r|]].
  - simpl. lia.
  - intros k row _. apply Hrows.
Qed.

Lemma linear_cell_raise self kin i j e :
  linear_cell self kin i j = raise e → e = list_index_out_of_range.
Proof.
  unfold linear_cell, getitem.
  destruct (kin !! i) as [row|]; simpl; [|by intros [= <-]].
  destruct (row !! j) as [[r|]|]; simpl; [| done | by intros [= <-]].
  destruct (_ !! 0); simpl; [done | by intros [= <-]].
Qed.

Lemma NoDup_fmap_eq {A B} (f : A → B) (l : list A) x y :
  NoDup (f <$> l) → x ∈ l → y ∈ l → f x = f y → x = y.
Proof.
  intros Hnd Hx Hy Hf.
  apply list_elem_of_lookup in Hx as [i Hi].
  apply list_elem_of_lookup in Hy as [j Hj].
  assert (i = j) as ->; [|congruence].
  eapply NoDup_lookup; [done| |].
  - by rewrite list_lookup_fmap, Hi.
  - by rewrite list_lookup_fmap, Hj, Hf.
Qed.

(** In a network built by [addReaction], an edge with the rate of a
    reaction has the reverse of that reaction as its other leg. *)
Lemma edge_of_rate_has_reverse self x bi :
  well_formed self →
  x ∈ _reactions self →
  bi ∈ _bidirectionalRates self →
  contains_Rate bi (Some (rate x)) = true →
  ∃ v, v ∈ matching self (to_state x) (from_state x).
Proof.
  intros Hwf Hx Hbi Hc.
  destruct (wf_edges _ Hwf bi Hbi) as (Hf & Hr & Hrf & Hrt).
  simpl in Hc. apply orb_true_iff in Hc as [Hc|Hc];
    apply ReactionRate_eq_true in Hc;
    apply (NoDup_fmap_eq _ _ _ _ (wf_rates _ Hwf)) in Hc; try done; subst x.
  - exists (_rev_reaction bi). by apply elem_of_matching.
  - exists (_fwd_reaction bi). apply elem_of_matching. by rewrite Hrf, Hrt.
Qed.

(** C1. In a network built by [addReaction] that holds a reaction whose
    reverse was never added, [linear_graph_matrix] does not return a table
    with an absent cell for that reaction: it raises.  When the kinetic
    matrix is returned, what it raises is the error of [l[0]] on the empty
    list of the edges that have the rate of the reaction. *)
Theorem linear_graph_matrix_unpaired_raises self R :
  reachable self →
  R ∈ _reactions self →
  matching self (to_state R) (from_state R) = [] →
  (∃ e, linear_graph_matrix self = raise e)
  ∧ (∀ kin, kinetic_matrix self = ret kin →
       linear_graph_matrix self = raise list_index_out_of_range).
Proof.
  intros Hwf%reachable_well_formed HR Hrev.
  rewrite linear_graph_matrix_traverse.
  destruct (kinetic_matrix self) as [e|kin] eqn:Hkin; simpl.
  { split; [by exists e|done]. }
  cut (traverse
         (fun '(i, _) =>
            traverse (fun '(j, _) => linear_cell self kin i j)
              (enumerate (_enzymeStates self)))
         (enumerate (_enzymeStates self)) = raise list_index_out_of_range).
  { intros ->. split; [by eexists|done]. }
  destruct (wf_states _ Hwf R HR) as [[i Hi]%list_elem_of_lookup
                                       [j Hj]%list_elem_of_lookup].
  destruct (kinetic_matrix_ret self kin Hkin) as (_ & _ & Hcell).
  destruct (Hcell i j _ _ Hi Hj) as [Hone Hij].
  assert (linear_cell self kin i j = raise list_index_out_of_range) as Hraise.
  { unfold linear_cell, getitem. unfold cell in Hij.
    destruct (matching self (from_state R) (to_state R)) as [|x l] eqn:Hm.
    { assert (R ∈ matching self (from_state R) (to_state R)) as HRm
        by by apply elem_of_matching.
      rewrite Hm in HRm. by apply elem_of_nil in HRm. }
    assert (x ∈ matching self (from_state R) (to_state R)) as Hx
      by (rewrite Hm; left).
    apply elem_of_matching in Hx as (Hx & Hxf & Hxt).
    destruct (kin !! i) as [row|]; simpl in *; [|done].
    destruct (row !! j) as [c|]; simpl in *; [|done].
    subst c.
    destruct (List.filter _ _) as [|[k bi] l'] eqn:Hfl; [done|].
    exfalso.
    assert ((k, bi) ∈ List.filter
              (fun biDirect : nat * BiDirReaction =>
                 contains_Rate biDirect.2 (Some (rate x)))
              (enumerate (_bidirectionalRates self))) as Hin
      by (rewrite Hfl; left).
    apply elem_of_filter_bool in Hin as [Hin Hc].
    apply elem_of_lookup_imap_1 in Hin as (k' & bi' & [= -> ->] & Hbi).
    apply list_elem_of_lookup_2 in Hbi.
    destruct (edge_of_rate_has_reverse self x bi' Hwf Hx Hbi Hc) as [v Hv].
    rewrite Hxf, Hxt, Hrev in Hv. by apply elem_of_nil in Hv. }
  apply (traverse_raise _ _ _ (i, from_state R)).
  - intros [i' a] e' He'.
    apply traverse_raise_inv in He' as ([j' b] & _ & He').
    by eapply linear_cell_raise.
  - by apply (elem_of_lookup_imap_2 pair).
  - apply (traverse_raise _ _ _ (j, to_state R)); [|by apply (elem_of_lookup_imap_2 pair)|done].
    intros [j' b] e' He'. by eapply linear_cell_raise.
Qed.

Lemma linear_graph_matrix_unpaired_raises_witness :
  reachable net_R1
  ∧ R1 ∈ _reactions net_R1
  ∧ matching net_R1 (to_state R1) (from_state R1) = []
  ∧ (∃ e, linear_graph_matrix net_R1 = raise e)
  ∧ (∀ kin, kinetic_matrix net_R1 = ret kin →
       linear_graph_matrix net_R1 = raise list_index_out_of_range).
Proof.
  assert (reachable net_R1) as H1
    by exact (reachable_add Reactions_init R1 reachable_init).
  assert (R1 ∈ _reactions net_R1) as H2 by left.
  assert (matching net_R1 (to_state R1) (from_state R1) = []) as H3
    by reflexivity.
  split; [exact H1|]. split; [exact H2|]. split; [exact H3|].
  exact (linear_graph_matrix_unpaired_raises net_R1 R1 H1 H2 H3).
Defined.

(** After [addReaction(R1)] alone the kinetic matrix has the rate [k1] in
    cell [E][EA] and nothing in cell [EA][E], no edge exists, and the
    linear graph matrix is not returned. *)
Example net_R1_matrices :
  addReactions [R1] Reactions_init = (net_R1, ret tt)
  ∧ _enzymeStates net_R1 = [E; EA]
  ∧ kinetic_matrix net_R1
    = ret [[None; Some (mkReactionRate "k1" None)]; [None; None]]
  ∧ _bidirectionalRates net_R1 = []
  ∧ linear_graph_matrix net_R1 = raise list_index_out_of_range.
Proof. by vm_compute. Qed.

(** The cycle A -> B -> C -> A is accepted, no edge is created, the kinetic
    matrix has the three rates along the cycle, and the linear graph matrix
    is not returned. *)
Example net_cycle_matrices :
  addReactions cycle Reactions_init = (net_cycle, ret tt)
  ∧ _enzymeStates net_cycle = [sA; sB; sC]
  ∧ _bidirectionalRates net_cycle = []
  ∧ kinetic_matrix net_cycle
    = ret [[None; Some (mkReactionRate "k1" None); None];
           [None; None; Some (mkReactionRate "k2" None)];
           [Some (mkReactionRate "k3" None); None; None]]
  ∧ linear_graph_matrix net_cycle = raise list_index_out_of_range.
Proof. by vm_compute. Qed.

(** C2, as the code has it. After [addReaction(R1)] and [addReaction(R2)]
    on an empty network the cells [E][EA] and [EA][E] of the linear graph
    matrix hold the same object, the edge in slot 0 of
    [_bidirectionalRates]; its forward leg is the reaction added last, R2,
    and its reverse leg the reaction found, R1, so that it prints as
    [k-1//k1]. *)
Theorem linear_graph_R1_R2_shared_edge :
  addReactions [R1; R2] Reactions_init = (net_R1_R2, ret tt)
  ∧ _enzymeStates net_R1_R2 = [E; EA]
  ∧ _bidirectionalRates net_R1_R2 = [mkBiDirReaction R2 R1]
  ∧ (∃ m,
       linear_graph_matrix net_R1_R2 = ret m
       ∧ cell m 0 1 = Some (0, mkBiDirReaction R2 R1)
       ∧ cell m 1 0 = Some (0, mkBiDirReaction R2 R1)
       ∧ cell m 0 0 = None ∧ cell m 1 1 = None)
  ∧ BiDirReaction_str (mkBiDirReaction R2 R1) = "k-1//k1".
Proof.
  split_and!; try by vm_compute.
  eexists. split; [by vm_compute|]. by vm_compute.
Qed.

(** The edge that the two cells share does not print as [k1//k-1]. *)
Lemma linear_graph_R1_R2_not_k1_first :
  ¬ ∃ m bi,
      linear_graph_matrix net_R1_R2 = ret m
      ∧ cell m 0 1 = Some bi
      ∧ cell m 1 0 = Some bi
      ∧ BiDirReaction_str bi.2 = "k1//k-1".
Proof.
  intros (m & bi & Hm & H01 & _ & Hstr).
  vm_compute in Hm. injection Hm as <-.
  vm_compute in H01. injection H01 as <-.
  vm_compute in Hstr. discriminate Hstr.
Qed.

(** ** Replaying a sequence of reactions *)

Lemma addReactions_app rs1 rs2 self :
  addReactions (rs1 ++ rs2) self =
  match addReactions rs1 self with
  | (s1, inr _) => addReactions rs2 s1
  | (s1, inl e) => (s1, inl e)
  end.
Proof.
  revert self. induction rs1 as [|r rs1 IH]; intros self; simpl; [done|].
  destruct (addReaction r self) as [s1 [e|u]]; [done|]. apply IH.
Qed.

Lemma addReactions_snoc_ok rs r self s' :
  addReactions (rs ++ [r]) self = (s', ret tt) →
  ∃ s1, addReactions rs self = (s1, ret tt)
        ∧ addReaction r s1 = (s', ret tt).
Proof.
  rewrite addReactions_app.
  destruct (addReactions rs self) as [s1 [e|[]]]; [done|]. simpl.
  destruct (addReaction r s1) as [s2 [e|[]]] eqn:Hr; [done|].
  intros [= ->]. by exists s1.
Qed.

Lemma addReactions_reachable rs self :
  reachable self → reachable (addReactions rs self).1.
Proof.
  revert self. induction rs as [|r rs IH]; intros self Hs; simpl; [done|].
  pose proof (reachable_add self r Hs) as Hr.
  destruct (addReaction r self) as [s1 [e|u]]; [done|]. by apply IH.
Qed.

(** What a call that returns has done. *)
Lemma addReaction_ok_inv reaction self s' :
  addReaction reaction self = (s', ret tt) →
  reaction_from_Rate self (rate reaction) = []
  ∧ _reactions s' = _reactions self ++ [reaction]
  ∧ _enzymeStates s'
    = add_state (add_state (_enzymeStates self) (from_state reaction))
        (to_state reaction)
  ∧ ((matching s' (to_state reaction) (from_state reaction) = []
      ∧ _bidirectionalRates s' = _bidirectionalRates self)
     ∨ (∃ v, matching s' (to_state reaction) (from_state reaction) = [v]
             ∧ _bidirectionalRates s'
               = _bidirectionalRates self ++ [mkBiDirReaction reaction v])).
Proof.
  rewrite addReaction_eq.
  destruct (reaction_from_Rate self (rate reaction)) as [|x l]; [|done].
  simpl. destruct (existsb _ _); [done|].
  unfold matching at 1. simpl.
  destruct (List.filter _ _) as [|v [|v' l]] eqn:Hm; [| |done].
  - intros [= <-]. split_and!; try done. left. by unfold matching.
  - intros [= <-]. split_and!; try done. right. exists v. by unfold matching.
Qed.

Lemma addReactions_ok_inv rs self s' :
  addReactions rs self = (s', ret tt) →
  _reactions s' = _reactions self ++ rs
  ∧ _enzymeStates s' = fold_left add_state (states_of rs) (_enzymeStates self)
  ∧ ∃ es, _bidirectionalRates s' = _bidirectionalRates self ++ es.
Proof.
  revert self. induction rs as [|r rs IH]; intros self; simpl.
  - intros [= <-]. rewrite app_nil_r. split_and!; try done.
    exists []. by rewrite app_nil_r.
  - destruct (addReaction r self) as [s1 [e|[]]] eqn:Hr; [done|].
    intros (Hrs & Hst & es & Hes)%IH.
    apply addReaction_ok_inv in Hr as (_ & Hr1 & Hs1 & Hedges).
    rewrite Hrs, Hr1, Hst, Hs1, Hes, <- app_assoc. split_and!; try done.
    destruct Hedges as [[_ ->]|(v & _ & ->)]; [by exists es|].
    rewrite <- app_assoc. by eexists.
Qed.

(** ** The states, in the order of first encounter *)

Lemma elem_of_first_seen l x : x ∈ first_seen l ↔ x ∈ l.
Proof.
  induction l as [|y l IH]; simpl; [done|].
  rewrite !elem_of_cons, elem_of_filter_bool, IH, negb_true_iff.
  destruct (Enzymestate_eq x y) eqn:Hxy.
  - apply Enzymestate_eq_true in Hxy. split; auto.
  - split; [intros [?|[? _]]; auto|]. intros [->|?]; [|auto].
    by rewrite Enzymestate_eq_refl in Hxy.
Qed.

Lemma NoDup_first_seen l : NoDup (first_seen l).
Proof.
  induction l as [|y l IH]; simpl; [apply NoDup_nil_2|].
  apply NoDup_cons. split.
  - rewrite elem_of_filter_bool, Enzymestate_eq_refl. by intros [_ ?].
  - by apply NoDup_filter_bool.
Qed.

Lemma fold_add_state xs acc :
  fold_left add_state xs acc
  = acc ++ List.filter (fun y => negb (existsb (Enzymestate_eq y) acc))
             (first_seen xs).
Proof.
  revert acc. induction xs as [|x xs IH]; intros acc; simpl.
  - by rewrite app_nil_r.
  - rewrite IH, filter_filter_bool. unfold add_state.
    destruct (existsb (Enzymestate_eq x) acc) eqn:Hx; simpl.
    + f_equal. apply filter_ext. intros y.
      destruct (Enzymestate_eq y x) eqn:Hyx; simpl; [|done].
      apply Enzymestate_eq_true in Hyx as ->. by rewrite Hx.
    + rewrite <- app_assoc. simpl. do 2 f_equal. apply filter_ext. intros y.
      rewrite existsb_app. simpl. rewrite orb_false_r, negb_orb.
      apply andb_comm.
Qed.

Lemma fold_add_state_nil xs : fold_left add_state xs [] = first_seen xs.
Proof.
  rewrite fold_add_state. simpl.
  induction (first_seen xs) as [|x l IH]; simpl; [done|]. by rewrite IH.
Qed.

(** C8. After a sequence of calls of [addReaction] that all return, the
    states are the source and destination of every registered reaction,
    each once, in the order in which the names are first met when the
    calls are read in input order, source before destination. *)
Theorem enzymeStates_first_seen rs self :
  addReactions rs Reactions_init = (self, ret tt) →
  _reactions self = rs
  ∧ _enzymeStates self = first_seen (states_of rs)
  ∧ NoDup (_enzymeStates self)
  ∧ (∀ r, r ∈ rs →
       from_state r ∈ _enzymeStates self ∧ to_state r ∈ _enzymeStates self)
  ∧ (∀ e, e ∈ _enzymeStates self →
       ∃ r, r ∈ rs ∧ (from_state r = e ∨ to_state r = e)).
Proof.
  intros (Hrs & Hst & _)%addReactions_ok_inv. simpl in *.
  rewrite fold_add_state_nil in Hst.
  assert (∀ e, e ∈ _enzymeStates self ↔
               ∃ r, r ∈ rs ∧ (from_state r = e ∨ to_state r = e)) as Hin.
  { intros e. rewrite Hst, elem_of_first_seen. unfold states_of.
    rewrite list_elem_of_In, in_flat_map.
    apply exist_proper; intros r. rewrite list_elem_of_In. simpl. tauto. }
  split_and!; try done.
  - rewrite Hst. apply NoDup_first_seen.
  - intros r Hr. split; apply Hin; eauto.
  - intros e. apply Hin.
Qed.

Lemma enzymeStates_first_seen_witness :
  addReactions unsorted Reactions_init = (net_unsorted, ret tt)
  ∧ _reactions net_unsorted = unsorted
  ∧ _enzymeStates net_unsorted = first_seen (states_of unsorted)
  ∧ NoDup (_enzymeStates net_unsorted)
  ∧ (∀ r, r ∈ unsorted →
       from_state r ∈ _enzymeStates net_unsorted
       ∧ to_state r ∈ _enzymeStates net_unsorted)
  ∧ (∀ e, e ∈ _enzymeStates net_unsorted →
       ∃ r, r ∈ unsorted ∧ (from_state r = e ∨ to_state r = e)).
Proof.
  assert (addReactions unsorted Reactions_init = (net_unsorted, ret tt)) as H
    by reflexivity.
  split; [exact H|].
  exact (enzymeStates_first_seen unsorted net_unsorted H).
Defined.

Example unsorted_states : _enzymeStates net_unsorted = [sC; sA; sB].
Proof. reflexivity. Qed.

(** ** Sequences with distinct rates and distinct endpoints *)

Lemma NoDup_fmap_snoc {A B} (f : A → B) (l : list A) x :
  NoDup (f <$> (l ++ [x])) →
  NoDup (f <$> l) ∧ ∀ y, y ∈ l → f y ≠ f x.
Proof.
  rewrite fmap_app. intros (Hl & Hx & _)%NoDup_app. split; [done|].
  intros y Hy Heq. apply (Hx (f y)).
  - by apply list_elem_of_fmap_2.
  - rewrite Heq. simpl. left.
Qed.

Lemma matching_length_distinct self a b :
  NoDup (endpoints <$> _reactions self) → length (matching self a b) ≤ 1.
Proof.
  intros Hnd. unfold matching.
  apply (filter_key_unique endpoints _ (a, b)); [done|].
  intros x [Hf Ht]%andb_true_iff.
  apply Enzymestate_eq_true in Hf, Ht. unfold endpoints. congruence.
Qed.

Lemma addReactions_distinct_ok rs :
  NoDup ((fun r => name (rate r)) <$> rs) →
  NoDup (endpoints <$> rs) →
  ∃ self, addReactions rs Reactions_init = (self, ret tt).
Proof.
  induction rs as [|r rs IH] using rev_ind; intros Hnames Hends.
  { by exists Reactions_init. }
  apply NoDup_fmap_snoc in Hnames as [Hnames Hr].
  destruct (NoDup_fmap_snoc _ _ _ Hends) as [Hends' _].
  destruct (IH Hnames Hends') as [s1 Hs1].
  pose proof (addReactions_reachable rs Reactions_init reachable_init) as Hwf.
  rewrite Hs1 in Hwf. simpl in Hwf. apply reachable_well_formed in Hwf.
  destruct (addReactions_ok_inv _ _ _ Hs1) as (Hrs & _). simpl in Hrs.
  rewrite addReactions_app, Hs1. simpl. rewrite addReaction_eq.
  assert (reaction_from_Rate s1 (rate r) = []) as Hnew.
  { apply reaction_from_Rate_nil. intros x Hx. apply Hr. by rewrite <- Hrs. }
  rewrite Hnew, new_rate_not_paired by done. simpl.
  set (s2 := {| _reactions := _reactions s1 ++ [r];
                _enzymeStates := _;
                _bidirectionalRates := _bidirectionalRates s1 |}).
  pose proof (matching_length_distinct s2 (to_state r) (from_state r)) as Hlen.
  simpl in Hlen. rewrite Hrs in Hlen. specialize (Hlen Hends).
  destruct (matching s2 _ _) as [|v [|v' l]]; simpl in Hlen;
    [by eexists|by eexists|lia].
Qed.

(** C4. A sequence of reactions whose rate names are pairwise distinct and
    in which no two reactions have the same ordered endpoints is replayed
    on an empty network without an exception: in particular neither error
    of a duplicate rate and no error of several matching reactions is
    raised. *)
Theorem addReactions_distinct_no_error rs :
  NoDup ((fun r => name (rate r)) <$> rs) →
  NoDup (endpoints <$> rs) →
  (addReactions rs Reactions_init).2 = ret tt
  ∧ (addReactions rs Reactions_init).2 ≠ raise DuplicateRate
  ∧ (addReactions rs Reactions_init).2 ≠ raise DuplicateRate_paired
  ∧ (addReactions rs Reactions_init).2 ≠ raise MultipleMatchingReactions.
Proof.
  intros Hnames Hends.
  destruct (addReactions_distinct_ok rs Hnames Hends) as [self ->].
  by simpl.
Qed.

Lemma addReactions_distinct_no_error_witness :
  NoDup ((fun r => name (rate r)) <$> cycle)
  ∧ NoDup (endpoints <$> cycle)
  ∧ (addReactions cycle Reactions_init).2 = ret tt
  ∧ (addReactions cycle Reactions_init).2 ≠ raise DuplicateRate
  ∧ (addReactions cycle Reactions_init).2 ≠ raise DuplicateRate_paired
  ∧ (addReactions cycle Reactions_init).2 ≠ raise MultipleMatchingReactions.
Proof.
  assert (NoDup ((fun r => name (rate r)) <$> cycle)) as H1.
  { unfold cycle. simpl.
    repeat (apply NoDup_cons_2;
            [rewrite ?elem_of_cons, elem_of_nil; intuition discriminate|]).
    apply NoDup_nil_2. }
  assert (NoDup (endpoints <$> cycle)) as H2.
  { unfold cycle. simpl.
    repeat (apply NoDup_cons_2;
            [rewrite ?elem_of_cons, elem_of_nil; intuition discriminate|]).
    apply NoDup_nil_2. }
  split; [exact H1|]. split; [exact H2|].
  exact (addReactions_distinct_no_error cycle H1 H2).
Defined.

(** ** Every reaction in at most one edge *)

(** A reaction that an edge contains has the rate name and the endpoints
    of one leg, and the other leg runs the opposite way. *)
Lemma contained_reaction_legs self bi x :
  well_formed self →
  bi ∈ _bidirectionalRates self →
  contains_reaction bi (Some x) = true →
  ∃ l l', l ∈ _reactions self ∧ l' ∈ _reactions self
          ∧ name (rate l) = name (rate x)
          ∧ endpoints l' = (to_state x, from_state x).
Proof.
  intros Hwf Hbi Hc.
  destruct (wf_edges _ Hwf bi Hbi) as (Hf & Hr & Hrf & Hrt).
  simpl in Hc. apply orb_true_iff in Hc as [Hc|Hc];
    apply UnitReaction_eq_true in Hc as (Hxf & Hxt & Hxn).
  - exists (_fwd_reaction bi), (_rev_reaction bi). unfold endpoints.
    split_and!; try done. congruence.
  - exists (_rev_reaction bi), (_fwd_reaction bi). unfold endpoints.
    split_and!; try done. congruence.
Qed.

Lemma edges_containing_le_1 rs :
  NoDup (endpoints <$> rs) →
  ∀ self, addReactions rs Reactions_init = (self, ret tt) →
  ∀ x, length (edges_containing self x) ≤ 1.
Proof.
  induction rs as [|r rs IH] using rev_ind; intros Hends self Hok x.
  { injection Hok as <-. unfold edges_containing. simpl. lia. }
  apply NoDup_fmap_snoc in Hends as [Hends Hr].
  apply addReactions_snoc_ok in Hok as (s1 & Hs1 & Hadd).
  specialize (IH Hends s1 Hs1 x).
  pose proof (addReactions_reachable rs Reactions_init reachable_init) as Hwf.
  rewrite Hs1 in Hwf. simpl in Hwf. apply reachable_well_formed in Hwf.
  destruct (addReactions_ok_inv _ _ _ Hs1) as (Hrs & _). simpl in Hrs.
  apply addReaction_ok_inv in Hadd as (Hnew & Hrs' & _ & Hedges).
  unfold edges_containing in *.
  destruct Hedges as [[_ ->]|(v & Hv & ->)]; [done|].
  rewrite List.filter_app, length_app. cbn [List.filter].
  destruct (contains_reaction (mkBiDirReaction r v) (Some x)) eqn:Hc;
    [|cbn [length]; lia].
  cut (List.filter (fun bi => contains_reaction bi (Some x))
         (_bidirectionalRates s1) = []).
  { intros ->. simpl. lia. }
  apply filter_bool_nil. intros bi Hbi. apply not_true_is_false. intros Hbix.
  destruct (contained_reaction_legs s1 bi x Hwf Hbi Hbix)
    as (l & l' & Hl & Hl' & Hln & Hl'e).
  rewrite Hrs in Hl, Hl'.
  simpl in Hc. apply orb_true_iff in Hc as [Hc|Hc];
    apply UnitReaction_eq_true in Hc as (Hxf & Hxt & Hxn).
  - rewrite reaction_from_Rate_nil in Hnew. apply (Hnew l).
    + by rewrite Hrs.
    + congruence.
  - assert (v ∈ matching self (to_state r) (from_state r)) as Hvm
      by (rewrite Hv; left).
    apply elem_of_matching in Hvm as (_ & Hvf & Hvt).
    apply (Hr l' Hl'). rewrite Hl'e. unfold endpoints. congruence.
Qed.

(** C3, as the code has it. When no two reactions of the sequence have the
    same ordered endpoints and every call of [addReaction] returns, every
    reaction is a leg, forward or reverse, of at most one bidirectional
    edge, and a reaction whose reverse is registered when it is added (the
    search runs on the list that already holds the reaction) is a leg of
    exactly one, the edge created when it was added. *)
Theorem paired_once_with_distinct_endpoints rs self :
  NoDup (endpoints <$> rs) →
  addReactions rs Reactions_init = (self, ret tt) →
  (∀ x, length (edges_containing self x) ≤ 1)
  ∧ (∀ pre r post,
       rs = pre ++ r :: post →
       (∃ r', r' ∈ pre ++ [r] ∧ from_state r' = to_state r
              ∧ to_state r' = from_state r) →
       length (edges_containing self r) = 1
       ∧ ∃ v, edges_containing self r = [mkBiDirReaction r v]).
Proof.
  intros Hends Hok.
  pose proof (edges_containing_le_1 rs Hends self Hok) as Hle.
  split; [done|].
  intros pre r post -> (r' & Hr' & Hr'f & Hr't).
  rewrite addReactions_app in Hok.
  destruct (addReactions pre Reactions_init) as [sa [e|[]]] eqn:Hpre;
    [done|].
  simpl in Hok.
  destruct (addReaction r sa) as [sb [e|[]]] eqn:Hadd; [done|].
  destruct (addReactions_ok_inv _ _ _ Hpre) as (Hrsa & _). simpl in Hrsa.
  destruct (addReactions_ok_inv _ _ _ Hok) as (_ & _ & es & Hes).
  apply addReaction_ok_inv in Hadd as (_ & Hrsb & _ & Hedges).
  destruct Hedges as [[Hnil _]|(v & _ & Hv)].
  { assert (r' ∈ matching sb (to_state r) (from_state r)) as Hin.
    { apply elem_of_matching. by rewrite Hrsb, Hrsa. }
    rewrite Hnil in Hin. by apply elem_of_nil in Hin. }
  assert (mkBiDirReaction r v ∈ edges_containing self r) as Hin.
  { unfold edges_containing. apply elem_of_filter_bool. split.
    - rewrite Hes, Hv, !elem_of_app, list_elem_of_singleton. auto.
    - simpl. apply orb_true_iff. left. by apply UnitReaction_eq_true. }
  specialize (Hle r).
  destruct (edges_containing self r) as [|bi [|bi' l]]; simpl in Hle.
  - by apply elem_of_nil in Hin.
  - apply list_elem_of_singleton in Hin as <-. split; [done|by exists v].
  - lia.
Qed.

Lemma paired_once_with_distinct_endpoints_witness :
  NoDup (endpoints <$> [R1; R2])
  ∧ addReactions [R1; R2] Reactions_init = (net_R1_R2, ret tt)
  ∧ (∀ x, length (edges_containing net_R1_R2 x) ≤ 1)
  ∧ (∀ pre r post,
       [R1; R2] = pre ++ r :: post →
       (∃ r', r' ∈ pre ++ [r] ∧ from_state r' = to_state r
              ∧ to_state r' = from_state r) →
       length (edges_containing net_R1_R2 r) = 1
       ∧ ∃ v, edges_containing net_R1_R2 r = [mkBiDirReaction r v]).
Proof.
  assert (NoDup (endpoints <$> [R1; R2])) as H1.
  { simpl.
    repeat (apply NoDup_cons_2;
            [rewrite ?elem_of_cons, elem_of_nil; intuition discriminate|]).
    apply NoDup_nil_2. }
  assert (addReactions [R1; R2] Reactions_init = (net_R1_R2, ret tt)) as H2
    by reflexivity.
  split; [exact H1|]. split; [exact H2|].
  exact (paired_once_with_distinct_endpoints [R1; R2] net_R1_R2 H1 H2).
Defined.

(** R2 is added after its reverse R1 and is a leg of one edge. *)
Example R2_paired_once :
  edges_containing net_R1_R2 R2 = [mkBiDirReaction R2 R1]
  ∧ edges_containing net_R1_R2 R1 = [mkBiDirReaction R2 R1].
Proof. split; reflexivity. Qed.

(** Three calls that all return, after which the reaction B -> A is a leg
    of two edges: nothing refuses the second reaction A -> B. *)
Lemma parallel_reaction_in_two_edges :
  addReactions parallel Reactions_init = (net_parallel, ret tt)
  ∧ BA2 ∈ _reactions net_parallel
  ∧ edges_containing net_parallel BA2
    = [mkBiDirReaction BA2 AB1; mkBiDirReaction AB3 BA2]
  ∧ ¬ length (edges_containing net_parallel BA2) ≤ 1.
Proof.
  split_and!; try reflexivity.
  - right. left.
  - vm_compute. lia.
Qed.

(** ** A reaction from a state to itself *)

(** C10, as the code has it. In a network built by [addReaction], a
    reaction from a state to itself with a new rate, when no reaction from
    that state to itself is registered yet, is accepted; the search for
    its reverse runs on the list that already holds it and finds the
    reaction itself, and the edge appended has it as both legs. *)
Theorem self_loop_own_reverse self a r :
  reachable self →
  reaction_from_Rate self r = [] →
  matching self a a = [] →
  ∃ s',
    addReaction (mkUnitReaction a r a) self = (s', ret tt)
    ∧ _reactions s' = _reactions self ++ [mkUnitReaction a r a]
    ∧ reverse_Reaction s' (mkUnitReaction a r a)
      = ret (Some (mkUnitReaction a r a))
    ∧ _bidirectionalRates s'
      = _bidirectionalRates self
        ++ [mkBiDirReaction (mkUnitReaction a r a) (mkUnitReaction a r a)].
Proof.
  intros Hwf%reachable_well_formed Hnew Hloop.
  rewrite addReaction_eq. cbn [rate from_state to_state]. rewrite Hnew.
  change (0 <? length (@nil UnitReaction)) with false. cbv iota zeta.
  rewrite new_rate_not_paired by done.
  assert (∀ sts es,
            matching {| _reactions := _reactions self ++ [mkUnitReaction a r a];
                        _enzymeStates := sts;
                        _bidirectionalRates := es |} a a
            = [mkUnitReaction a r a]) as Hm.
  { intros sts es. unfold matching in *. simpl.
    rewrite List.filter_app, Hloop. simpl.
    by rewrite Enzymestate_eq_refl. }
  rewrite Hm. eexists. split_and!; try done.
  rewrite reverse_Reaction_matching. simpl. by rewrite Hm.
Qed.

Lemma self_loop_own_reverse_witness :
  reachable net_R1_R2
  ∧ reaction_from_Rate net_R1_R2 (mkReactionRate "k0" None) = []
  ∧ matching net_R1_R2 E E = []
  ∧ ∃ s',
      addReaction (mkUnitReaction E (mkReactionRate "k0" None) E) net_R1_R2
      = (s', ret tt)
      ∧ _reactions s'
        = _reactions net_R1_R2
          ++ [mkUnitReaction E (mkReactionRate "k0" None) E]
      ∧ reverse_Reaction s' (mkUnitReaction E (mkReactionRate "k0" None) E)
        = ret (Some (mkUnitReaction E (mkReactionRate "k0" None) E))
      ∧ _bidirectionalRates s'
        = _bidirectionalRates net_R1_R2
          ++ [mkBiDirReaction
                (mkUnitReaction E (mkReactionRate "k0" None) E)
                (mkUnitReaction E (mkReactionRate "k0" None) E)].
Proof.
  assert (reachable net_R1_R2) as H1
    by exact (addReactions_reachable [R1; R2] Reactions_init reachable_init).
  assert (reaction_from_Rate net_R1_R2 (mkReactionRate "k0" None) = [])
    as H2 by reflexivity.
  assert (matching net_R1_R2 E E = []) as H3 by reflexivity.
  split; [exact H1|]. split; [exact H2|]. split; [exact H3|].
  exact (self_loop_own_reverse net_R1_R2 E (mkReactionRate "k0" None)
           H1 H2 H3).
Defined.

(** A second reaction from A to A, with a new rate, is refused: the search
    for its reverse finds the first one and the reaction itself. *)
Lemma second_self_loop_refused :
  reachable net_loop0
  ∧ from_state loop1 = to_state loop1
  ∧ reaction_from_Rate net_loop0 (rate loop1) = []
  ∧ (addReaction loop1 net_loop0).2 = raise MultipleReverseReactions
  ∧ (addReaction loop1 net_loop0).2 ≠ ret tt
  ∧ _bidirectionalRates (addReaction loop1 net_loop0).1
    = [mkBiDirReaction loop0 loop0].
Proof.
  split_and!; try reflexivity; try done.
  exact (addReactions_reachable [loop0] Reactions_init reachable_init).
Qed.

(** * Further properties of the network *)

(** ** What a call of [addReaction] leaves behind *)

(** X1. A call of [addReaction] that raises either refuses a rate that is
    already defined and leaves the network as it was, or raises in the
    pairing, with the error of a reaction already paired or of several
    reverse reactions: then the reaction and its states stay registered
    and no edge is added.  No other exception is raised. *)
Theorem addReaction_raise_cases reaction self s' e :
  addReaction reaction self = (s', raise e) →
  (e = DuplicateRate ∧ s' = self
   ∧ reaction_from_Rate self (rate reaction) ≠ [])
  ∨ ((e = DuplicateRate_paired ∨ e = MultipleReverseReactions)
     ∧ reaction_from_Rate self (rate reaction) = []
     ∧ _reactions s' = _reactions self ++ [reaction]
     ∧ _enzymeStates s'
       = add_state (add_state (_enzymeStates self) (from_state reaction))
           (to_state reaction)
     ∧ _bidirectionalRates s' = _bidirectionalRates self).
Proof.
  rewrite addReaction_eq.
  destruct (reaction_from_Rate self (rate reaction)) as [|x l] eqn:Hnew.
  - cbn [length Nat.ltb Nat.leb]. cbv zeta.
    destruct (existsb _ _).
    + intros [= <- <-]. right. split_and!; auto.
    + destruct (matching _ _ _) as [|v [|v' l]]; [done|done|].
      intros [= <- <-]. right. split_and!; auto.
  - intros [= <- <-]. left. by split_and!.
Qed.

Lemma addReaction_raise_cases_witness :
  addReaction loop1 net_loop0
  = ((addReaction loop1 net_loop0).1, raise MultipleReverseReactions)
  ∧ ((MultipleReverseReactions = DuplicateRate
      ∧ (addReaction loop1 net_loop0).1 = net_loop0
      ∧ reaction_from_Rate net_loop0 (rate loop1) ≠ [])
     ∨ ((MultipleReverseReactions = DuplicateRate_paired
         ∨ MultipleReverseReactions = MultipleReverseReactions)
        ∧ reaction_from_Rate net_loop0 (rate loop1) = []
        ∧ _reactions (addReaction loop1 net_loop0).1
          = _reactions net_loop0 ++ [loop1]
        ∧ _enzymeStates (addReaction loop1 net_loop0).1
          = add_state (add_state (_enzymeStates net_loop0) (from_state loop1))
              (to_state loop1)
        ∧ _bidirectionalRates (addReaction loop1 net_loop0).1
          = _bidirectionalRates net_loop0)).
Proof.
  assert (addReaction loop1 net_loop0
          = ((addReaction loop1 net_loop0).1, raise MultipleReverseReactions))
    as H by reflexivity.
  split; [exact H|].
  exact (addReaction_raise_cases loop1 net_loop0 _ _ H).
Defined.

(** X2. On a network built by [addReaction] the error of a reaction
    already paired is never raised: a reaction that passes the check of
    its rate is in no edge. *)
Theorem addReaction_never_paired_error reaction self :
  reachable self →
  (addReaction reaction self).2 ≠ raise DuplicateRate_paired.
Proof.
  intros Hwf%reachable_well_formed. rewrite addReaction_eq.
  destruct (reaction_from_Rate self (rate reaction)) as [|x l] eqn:Hnew;
    [|done].
  cbn [length Nat.ltb Nat.leb]. cbv zeta.
  rewrite new_rate_not_paired by done.
  by destruct (matching _ _ _) as [|v [|v' l]].
Qed.

Lemma addReaction_never_paired_error_witness :
  reachable net_R1_R2
  ∧ (addReaction R1 net_R1_R2).2 ≠ raise DuplicateRate_paired.
Proof.
  assert (reachable net_R1_R2) as H
    by exact (addReactions_reachable [R1; R2] Reactions_init reachable_init).
  split; [exact H|].
  exact (addReaction_never_paired_error R1 net_R1_R2 H).
Defined.

(** X3. [addReaction] only appends: whatever the call does, the
    reactions, the states and the edges it leaves behind start with what
    was there, followed by at most one reaction, two states and one
    edge. *)
Theorem addReaction_append_only reaction self :
  _reactions self `prefix_of` _reactions (addReaction reaction self).1
  ∧ _enzymeStates self `prefix_of` _enzymeStates (addReaction reaction self).1
  ∧ _bidirectionalRates self
    `prefix_of` _bidirectionalRates (addReaction reaction self).1
  ∧ length (_reactions (addReaction reaction self).1)
    ≤ length (_reactions self) + 1
  ∧ length (_enzymeStates (addReaction reaction self).1)
    ≤ length (_enzymeStates self) + 2
  ∧ length (_bidirectionalRates (addReaction reaction self).1)
    ≤ length (_bidirectionalRates self) + 1.
Proof.
  assert (∀ sts e, sts `prefix_of` add_state sts e
                   ∧ length (add_state sts e) ≤ length sts + 1) as Hadd.
  { intros sts e. unfold add_state. destruct (existsb _ _).
    - split; [done|lia].
    - split; [by apply prefix_app_r|]. rewrite length_app. simpl. lia. }
  assert (_enzymeStates self
            `prefix_of` add_state
                          (add_state (_enzymeStates self)
                             (from_state reaction))
                          (to_state reaction)
          ∧ length (add_state
                      (add_state (_enzymeStates self) (from_state reaction))
                      (to_state reaction))
            ≤ length (_enzymeStates self) + 2) as [Hst Hlen].
  { destruct (Hadd (_enzymeStates self) (from_state reaction)) as [H1 L1].
    destruct (Hadd (add_state (_enzymeStates self) (from_state reaction))
                (to_state reaction)) as [H2 L2].
    split; [by etrans|lia]. }
  rewrite addReaction_eq.
  destruct (0 <? _); [|cbv zeta; destruct (existsb _ _);
                       [|destruct (matching _ _ _) as [|v [|v' l]]]];
    cbn [fst _reactions _enzymeStates _bidirectionalRates];
    split_and!; rewrite ?length_app; cbn [length];
    first [reflexivity | lia | by apply prefix_app_r | done].
Qed.

(** What one call does to the network, whether it returns or raises. *)
Lemma addReaction_step reaction self :
  (addReaction reaction self).1 = self
  ∨ (reaction_from_Rate self (rate reaction) = []
     ∧ _reactions (addReaction reaction self).1
       = _reactions self ++ [reaction]
     ∧ _enzymeStates (addReaction reaction self).1
       = add_state (add_state (_enzymeStates self) (from_state reaction))
           (to_state reaction)
     ∧ (_bidirectionalRates (addReaction reaction self).1
        = _bidirectionalRates self
        ∨ ∃ v, v ∈ _reactions self ++ [reaction]
               ∧ from_state v = to_state reaction
               ∧ to_state v = from_state reaction
               ∧ _bidirectionalRates (addReaction reaction self).1
                 = _bidirectionalRates self ++ [mkBiDirReaction reaction v])).
Proof.
  rewrite addReaction_eq.
  destruct (reaction_from_Rate self (rate reaction)) as [|x l] eqn:Hnew;
    [|by left].
  right. cbn [length Nat.ltb Nat.leb]. cbv zeta.
  destruct (existsb _ _); [by split_and!; auto|].
  destruct (matching _ _ _) as [|v [|v' l]] eqn:Hm;
    [by split_and!; auto| |by split_and!; auto].
  split_and!; try done. right. exists v.
  assert (v ∈ [v]) as Hv by left. rewrite <- Hm in Hv.
  apply elem_of_matching in Hv as (Hv & Hf & Ht). by split_and!.
Qed.

(** ** Invariants of the networks built by [addReaction] *)

(** X4. In a network built by [addReaction], whether the calls returned
    or raised, [reaction_from_Rate] finds at most one reaction for any
    rate: the names of the registered rates are pairwise distinct. *)
Theorem reaction_from_Rate_at_most_one self r :
  reachable self →
  length (reaction_from_Rate self r) ≤ 1
  ∧ NoDup ((fun x => name (rate x)) <$> _reactions self).
Proof.
  intros Hwf%reachable_well_formed. split; [|apply (wf_rates _ Hwf)].
  unfold reaction_from_Rate.
  apply (filter_key_unique (fun x => name (rate x)) _ (name r)).
  - apply (wf_rates _ Hwf).
  - intros x Hx. by apply ReactionRate_eq_true in Hx.
Qed.

Lemma reaction_from_Rate_at_most_one_witness :
  reachable net_parallel
  ∧ length (reaction_from_Rate net_parallel (mkReactionRate "k2" (Some "S")))
    ≤ 1
  ∧ NoDup ((fun x => name (rate x)) <$> _reactions net_parallel).
Proof.
  assert (reachable net_parallel) as H
    by exact (addReactions_reachable parallel Reactions_init reachable_init).
  split; [exact H|].
  exact (reaction_from_Rate_at_most_one net_parallel
           (mkReactionRate "k2" (Some "S")) H).
Defined.

Lemma edge_legs_positions self :
  reachable self →
  ∀ bi, bi ∈ _bidirectionalRates self →
  ∃ i j, i ≤ j
         ∧ _reactions self !! i = Some (_rev_reaction bi)
         ∧ _reactions self !! j = Some (_fwd_reaction bi).
Proof.
  induction 1 as [|self reaction Hs IH].
  { intros bi Hbi. by apply elem_of_nil in Hbi. }
  destruct (addReaction_step reaction self)
    as [->|(_ & -> & _ & Hedges)]; [done|].
  assert (∀ bi, bi ∈ _bidirectionalRates self →
            ∃ i j, i ≤ j
              ∧ (_reactions self ++ [reaction]) !! i = Some (_rev_reaction bi)
              ∧ (_reactions self ++ [reaction]) !! j
                = Some (_fwd_reaction bi)) as IH'.
  { intros bi (i & j & Hij & Hi & Hj)%IH. exists i, j.
    split_and!; [done| |]; by apply lookup_app_l_Some. }
  destruct Hedges as [->|(v & Hv & _ & _ & ->)]; [done|].
  intros bi [Hbi| ->%list_elem_of_singleton]%elem_of_app; [by apply IH'|].
  simpl. apply list_elem_of_lookup in Hv as [i Hi].
  exists i, (length (_reactions self)). split_and!; [|done|].
  - apply lookup_lt_Some in Hi. rewrite length_app in Hi. simpl in Hi. lia.
  - by rewrite lookup_app_r, Nat.sub_diag.
Qed.

(** X5. In a network built by [addReaction], the two legs of every edge
    are registered reactions that run in opposite directions, and the
    forward leg is never registered before the reverse leg: an edge is
    created by the call that adds the second of its reactions. *)
Theorem edge_forward_leg_is_later self bi :
  reachable self →
  bi ∈ _bidirectionalRates self →
  from_state (_rev_reaction bi) = to_state (_fwd_reaction bi)
  ∧ to_state (_rev_reaction bi) = from_state (_fwd_reaction bi)
  ∧ ∃ i j, i ≤ j
           ∧ _reactions self !! i = Some (_rev_reaction bi)
           ∧ _reactions self !! j = Some (_fwd_reaction bi).
Proof.
  intros Hs Hbi.
  destruct (wf_edges _ (reachable_well_formed _ Hs) bi Hbi)
    as (_ & _ & Hf & Ht).
  split_and!; try done. by apply edge_legs_positions.
Qed.

Lemma edge_forward_leg_is_later_witness :
  reachable net_parallel
  ∧ mkBiDirReaction AB3 BA2 ∈ _bidirectionalRates net_parallel
  ∧ from_state (_rev_reaction (mkBiDirReaction AB3 BA2))
    = to_state (_fwd_reaction (mkBiDirReaction AB3 BA2))
  ∧ to_state (_rev_reaction (mkBiDirReaction AB3 BA2))
    = from_state (_fwd_reaction (mkBiDirReaction AB3 BA2))
  ∧ ∃ i j, i ≤ j
           ∧ _reactions net_parallel !! i
             = Some (_rev_reaction (mkBiDirReaction AB3 BA2))
           ∧ _reactions net_parallel !! j
             = Some (_fwd_reaction (mkBiDirReaction AB3 BA2)).
Proof.
  assert (reachable net_parallel) as H1
    by exact (addReactions_reachable parallel Reactions_init reachable_init).
  assert (mkBiDirReaction AB3 BA2 ∈ _bidirectionalRates net_parallel) as H2
    by (right; left).
  split; [exact H1|]. split; [exact H2|].
  exact (edge_forward_leg_is_later net_parallel (mkBiDirReaction AB3 BA2)
           H1 H2).
Defined.

(** X6. In a network built by [addReaction], the forward legs of the
    edges, in the order of the edges, are a subsequence of the reactions:
    the edges are in the order in which their forward legs were added, no
    reaction is the forward leg of two edges, and there are at most as
    many edges as reactions. *)
Theorem edges_forward_legs_sublist self :
  reachable self →
  (_fwd_reaction <$> _bidirectionalRates self) `sublist_of` _reactions self
  ∧ NoDup (_fwd_reaction <$> _bidirectionalRates self)
  ∧ length (_bidirectionalRates self) ≤ length (_reactions self).
Proof.
  intros Hs.
  assert ((_fwd_reaction <$> _bidirectionalRates self)
            `sublist_of` _reactions self) as Hsub.
  { induction Hs as [|self reaction Hs IH]; [done|].
    destruct (addReaction_step reaction self)
      as [->|(_ & -> & _ & Hedges)]; [done|].
    destruct Hedges as [->|(v & _ & _ & _ & ->)].
    - by apply sublist_inserts_r.
    - rewrite fmap_app. by apply sublist_app. }
  split_and!; [done| |].
  - eapply sublist_NoDup; [|exact Hsub].
    eapply NoDup_fmap_1, (wf_rates _ (reachable_well_formed _ Hs)).
  - apply sublist_length in Hsub. by rewrite length_fmap in Hsub.
Qed.

Lemma edges_forward_legs_sublist_witness :
  reachable net_parallel
  ∧ (_fwd_reaction <$> _bidirectionalRates net_parallel)
      `sublist_of` _reactions net_parallel
  ∧ NoDup (_fwd_reaction <$> _bidirectionalRates net_parallel)
  ∧ length (_bidirectionalRates net_parallel)
    ≤ length (_reactions net_parallel).
Proof.
  assert (reachable net_parallel) as H
    by exact (addReactions_reachable parallel Reactions_init reachable_init).
  split; [exact H|].
  exact (edges_forward_legs_sublist net_parallel H).
Defined.

Lemma NoDup_add_state sts e : NoDup sts → NoDup (add_state sts e).
Proof.
  intros Hnd. unfold add_state. destruct (existsb _ _) eqn:Hex; [done|].
  apply NoDup_app. split_and!; [done| |apply NoDup_singleton].
  intros x Hx ->%list_elem_of_singleton.
  apply not_true_iff_false in Hex. apply Hex, existsb_exists.
  exists e. split; [by apply list_elem_of_In|apply Enzymestate_eq_refl].
Qed.

(** X7. In a network built by [addReaction], whether the calls returned
    or raised, no state is listed twice, and the states are exactly the
    sources and destinations of the registered reactions. *)
Theorem reachable_states_exact self :
  reachable self →
  NoDup (_enzymeStates self)
  ∧ ∀ e, e ∈ _enzymeStates self ↔
         ∃ r, r ∈ _reactions self ∧ (from_state r = e ∨ to_state r = e).
Proof.
  induction 1 as [|self reaction Hs [IHnd IHin]].
  { split; [apply NoDup_nil_2|]. intros e. split.
    - intros He. by apply elem_of_nil in He.
    - intros (r & Hr & _). by apply elem_of_nil in Hr. }
  destruct (addReaction_step reaction self)
    as [->|(_ & -> & -> & _)]; [done|].
  split; [by do 2 apply NoDup_add_state|].
  intros e. rewrite !elem_of_add_state, IHin. split.
  - intros [[(r & Hr & He)| ->]| ->].
    + exists r. rewrite elem_of_app. auto.
    + exists reaction. rewrite elem_of_app, list_elem_of_singleton. auto.
    + exists reaction. rewrite elem_of_app, list_elem_of_singleton. auto.
  - intros (r & [Hr| ->%list_elem_of_singleton]%elem_of_app & He).
    + left. left. by exists r.
    + destruct He as [<-|<-]; auto.
Qed.

Lemma reachable_states_exact_witness :
  reachable (addReaction loop1 net_loop0).1
  ∧ NoDup (_enzymeStates (addReaction loop1 net_loop0).1)
  ∧ ∀ e, e ∈ _enzymeStates (addReaction loop1 net_loop0).1 ↔
         ∃ r, r ∈ _reactions (addReaction loop1 net_loop0).1
              ∧ (from_state r = e ∨ to_state r = e).
Proof.
  assert (reachable (addReaction loop1 net_loop0).1) as H.
  { apply reachable_add.
    exact (addReactions_reachable [loop0] Reactions_init reachable_init). }
  split; [exact H|].
  exact (reachable_states_exact _ H).
Defined.

(** ** Lookups after a call that returns *)

(** X8. After a call of [addReaction] that returns, the lookup by rate
    finds the new reaction and nothing else, and the lookups by another
    rate name are as before; the new reaction is the last one consumed by
    its source and produced by its destination; the lookup by its
    endpoints finds it when no reaction had these endpoints, and raises
    the error of several matching reactions when one had. *)
Theorem addReaction_then_lookup reaction self s' :
  addReaction reaction self = (s', ret tt) →
  reaction_from_Rate s' (rate reaction) = [reaction]
  ∧ (∀ q, name q ≠ name (rate reaction) →
       reaction_from_Rate s' q = reaction_from_Rate self q)
  ∧ consumed_by s' (from_state reaction)
    = consumed_by self (from_state reaction) ++ [reaction]
  ∧ produced_by s' (to_state reaction)
    = produced_by self (to_state reaction) ++ [reaction]
  ∧ reaction_from_Reactants s' (from_state reaction) (to_state reaction)
    = match matching self (from_state reaction) (to_state reaction) with
      | [] => ret (Some reaction)
      | _ :: _ => raise MultipleMatchingReactions
      end.
Proof.
  intros (Hnew & Hrs & _)%addReaction_ok_inv.
  unfold reaction_from_Rate, consumed_by, produced_by in *.
  rewrite reaction_from_Reactants_matching. unfold matching.
  rewrite Hrs, !List.filter_app. cbn [List.filter].
  rewrite !Enzymestate_eq_refl. cbn [andb].
  split_and!; try done.
  - rewrite Hnew. unfold ReactionRate_eq. by rewrite String.eqb_refl.
  - intros q Hq. rewrite List.filter_app. cbn [List.filter].
    unfold ReactionRate_eq.
    destruct (String.eqb_spec (name (rate reaction)) (name q)) as [Heq|_];
      [by rewrite Heq in Hq|]. by rewrite app_nil_r.
  - clear Hnew.
    by destruct (List.filter _ (_reactions self)) as [|x [|y l]].
Qed.

Lemma addReaction_then_lookup_witness :
  addReaction AB3 (addReactions [AB1; BA2] Reactions_init).1
  = (net_parallel, ret tt)
  ∧ reaction_from_Rate net_parallel (rate AB3) = [AB3]
  ∧ (∀ q, name q ≠ name (rate AB3) →
       reaction_from_Rate net_parallel q
       = reaction_from_Rate (addReactions [AB1; BA2] Reactions_init).1 q)
  ∧ consumed_by net_parallel (from_state AB3)
    = consumed_by (addReactions [AB1; BA2] Reactions_init).1 (from_state AB3)
      ++ [AB3]
  ∧ produced_by net_parallel (to_state AB3)
    = produced_by (addReactions [AB1; BA2] Reactions_init).1 (to_state AB3)
      ++ [AB3]
  ∧ reaction_from_Reactants net_parallel (from_state AB3) (to_state AB3)
    = match matching (addReactions [AB1; BA2] Reactions_init).1
              (from_state AB3) (to_state AB3) with
      | [] => ret (Some AB3)
      | _ :: _ => raise MultipleMatchingReactions
      end.
Proof.
  assert (addReaction AB3 (addReactions [AB1; BA2] Reactions_init).1
          = (net_parallel, ret tt)) as H by reflexivity.
  split; [exact H|].
  exact (addReaction_then_lookup AB3 _ net_parallel H).
Defined.

(** ** Parallel reactions and the kinetic matrix *)

Lemma NoDup_endpoints_of_matching self :
  (∀ r, r ∈ _reactions self →
        length (matching self (from_state r) (to_state r)) ≤ 1) →
  NoDup (endpoints <$> _reactions self).
Proof.
  unfold matching. induction (_reactions self) as [|x l IH]; intros Hone.
  { apply NoDup_nil_2. }
  rewrite fmap_cons. apply NoDup_cons. split.
  - intros (y & Hxy & Hy)%list_elem_of_fmap.
    specialize (Hone x (list_elem_of_here _ _)). cbn [List.filter] in Hone.
    rewrite !Enzymestate_eq_refl in Hone. cbn [andb length] in Hone.
    assert (y ∈ List.filter
              (fun r => Enzymestate_eq (from_state r) (from_state x)
                        && Enzymestate_eq (to_state r) (to_state x)) l)
      as Hin.
    { apply elem_of_filter_bool. split; [done|].
      injection Hxy as -> ->. by rewrite !Enzymestate_eq_refl. }
    destruct (List.filter _ l); [by apply elem_of_nil in Hin|].
    simpl in Hone. lia.
  - apply IH. intros r Hr.
    specialize (Hone r (list_elem_of_further _ _ _ Hr)).
    cbn [List.filter] in Hone. destruct (_ && _); simpl in Hone; lia.
Qed.

(** X9. In a network built by [addReaction], [kinetic_matrix] returns a
    table exactly when no two registered reactions have the same ordered
    endpoints, and raises the error of several matching reactions exactly
    when two have: parallel reactions, which [addReaction] accepts, are
    refused here. *)
Theorem kinetic_matrix_returns_iff self :
  reachable self →
  ((∃ m, kinetic_matrix self = ret m) ↔
   NoDup (endpoints <$> _reactions self))
  ∧ (kinetic_matrix self = raise MultipleMatchingReactions ↔
     ¬ NoDup (endpoints <$> _reactions self)).
Proof.
  intros Hwf%reachable_well_formed. rewrite kinetic_matrix_table.
  destruct (forallb _ _) eqn:Hok.
  - assert (NoDup (endpoints <$> _reactions self)) as Hnd.
    { apply NoDup_endpoints_of_matching. intros r Hr.
      destruct (wf_states _ Hwf r Hr) as [Hf Ht].
      rewrite forallb_forall in Hok.
      specialize (Hok _ (proj1 (list_elem_of_In _ _) Hf)).
      rewrite forallb_forall in Hok.
      by apply Nat.leb_le, Hok, list_elem_of_In. }
    split; split; try done; by eexists.
  - assert (¬ NoDup (endpoints <$> _reactions self)) as Hnd.
    { intros Hnd. apply not_true_iff_false in Hok. apply Hok.
      apply forallb_forall. intros a _. apply forallb_forall. intros b _.
      by apply Nat.leb_le, matching_length_distinct. }
    split; split; try done. by intros [m ?].
Qed.

Lemma kinetic_matrix_returns_iff_witness :
  reachable net_parallel
  ∧ ((∃ m, kinetic_matrix net_parallel = ret m) ↔
     NoDup (endpoints <$> _reactions net_parallel))
  ∧ (kinetic_matrix net_parallel = raise MultipleMatchingReactions ↔
     ¬ NoDup (endpoints <$> _reactions net_parallel)).
Proof.
  assert (reachable net_parallel) as H
    by exact (addReactions_reachable parallel Reactions_init reachable_init).
  split; [exact H|].
  exact (kinetic_matrix_returns_iff net_parallel H).
Defined.

(** The three calls of [parallel] return, and the kinetic matrix of the
    network they build is refused. *)
Example parallel_kinetic_matrix :
  addReactions parallel Reactions_init = (net_parallel, ret tt)
  ∧ kinetic_matrix net_parallel = raise MultipleMatchingReactions.
Proof. split; reflexivity. Qed.

(** X10. When no two registered reactions have the same ordered
    endpoints, the reverse of the reverse of a registered reaction is that
    reaction: if [reverse_Reaction] finds [v] for [r], then [v] is
    registered, runs the opposite way, and [reverse_Reaction] finds [r]
    for [v]. *)
Theorem reverse_Reaction_involutive self r v :
  NoDup (endpoints <$> _reactions self) →
  r ∈ _reactions self →
  reverse_Reaction self r = ret (Some v) →
  v ∈ _reactions self
  ∧ from_state v = to_state r ∧ to_state v = from_state r
  ∧ reverse_Reaction self v = ret (Some r).
Proof.
  intros Hnd Hr. rewrite !reverse_Reaction_matching.
  destruct (matching self (to_state r) (from_state r)) as [|x [|y l]] eqn:Hm;
    [done| |done].
  intros [= ->].
  assert (v ∈ matching self (to_state r) (from_state r)) as Hv
    by (rewrite Hm; left).
  apply elem_of_matching in Hv as (Hv & Hf & Ht).
  split_and!; try done. rewrite Hf, Ht.
  assert (r ∈ matching self (from_state r) (to_state r)) as Hin
    by by apply elem_of_matching.
  pose proof (matching_length_distinct self (from_state r) (to_state r) Hnd)
    as Hlen.
  destruct (matching self (from_state r) (to_state r)) as [|x [|y l]];
    [by apply elem_of_nil in Hin| |simpl in Hlen; lia].
  by apply list_elem_of_singleton in Hin as ->.
Qed.

Lemma reverse_Reaction_involutive_witness :
  NoDup (endpoints <$> _reactions net_R1_R2)
  ∧ R1 ∈ _reactions net_R1_R2
  ∧ reverse_Reaction net_R1_R2 R1 = ret (Some R2)
  ∧ R2 ∈ _reactions net_R1_R2
  ∧ from_state R2 = to_state R1 ∧ to_state R2 = from_state R1
  ∧ reverse_Reaction net_R1_R2 R2 = ret (Some R1).
Proof.
  assert (NoDup (endpoints <$> _reactions net_R1_R2)) as H1.
  { simpl.
    repeat (apply NoDup_cons_2;
            [rewrite ?elem_of_cons, elem_of_nil; intuition discriminate|]).
    apply NoDup_nil_2. }
  assert (R1 ∈ _reactions net_R1_R2) as H2 by left.
  assert (reverse_Reaction net_R1_R2 R1 = ret (Some R2)) as H3
    by reflexivity.
  split; [exact H1|]. split; [exact H2|]. split; [exact H3|].
  exact (reverse_Reaction_involutive net_R1_R2 R1 R2 H1 H2 H3).
Defined.

(** ** Reactions consumed and produced by the states *)

Lemma sum_over_add {A} (f g : A → nat) (l : list A) :
  sum_over (fun x => f x + g x) l = sum_over f l + sum_over g l.
Proof. induction l as [|x l IH]; simpl; [done|]. rewrite IH. lia. Qed.

Lemma sum_over_ext {A} (f g : A → nat) (l : list A) :
  (∀ x, f x = g x) → sum_over f l = sum_over g l.
Proof.
  intros Hfg. induction l as [|x l IH]; simpl; [done|]. by rewrite Hfg, IH.
Qed.

Lemma sum_over_indicator (sts : list Enzymestate) (e : Enzymestate) :
  NoDup sts → e ∈ sts →
  sum_over (fun x => if Enzymestate_eq e x then 1 else 0) sts = 1.
Proof.
  induction 1 as [|y l Hy Hnd IH]; intros He; [by apply elem_of_nil in He|].
  simpl. destruct (Enzymestate_eq e y) eqn:Hey.
  - apply Enzymestate_eq_true in Hey as ->.
    assert (sum_over (fun x => if Enzymestate_eq y x then 1 else 0) l = 0)
      as ->; [|done].
    clear IH He Hnd. induction l as [|z l IH]; simpl; [done|].
    apply not_elem_of_cons in Hy as [Hyz Hy].
    destruct (Enzymestate_eq y z) eqn:Hz;
      [by apply Enzymestate_eq_true in Hz|]. by apply IH.
  - apply elem_of_cons in He as [->|He];
      [by rewrite Enzymestate_eq_refl in Hey|]. by apply IH.
Qed.

Lemma sum_over_filter_key (key : UnitReaction → Enzymestate)
    (sts : list Enzymestate) (rs : list UnitReaction) :
  NoDup sts →
  (∀ r, r ∈ rs → key r ∈ sts) →
  sum_over
    (fun e => length (List.filter (fun r => Enzymestate_eq (key r) e) rs))
    sts
  = length rs.
Proof.
  intros Hnd. induction rs as [|r rs IH]; intros Hin.
  - simpl. clear. induction sts as [|e l IH]; simpl; by rewrite ?IH.
  - trans (sum_over (fun x => if Enzymestate_eq (key r) x then 1 else 0) sts
           + sum_over
               (fun e =>
                  length
                    (List.filter (fun r => Enzymestate_eq (key r) e) rs))
               sts).
    + rewrite <- sum_over_add. apply sum_over_ext. intros e. simpl.
      by destruct (Enzymestate_eq (key r) e).
    + rewrite sum_over_indicator by (done || apply Hin; left).
      rewrite IH by (intros x Hx; apply Hin; by right). done.
Qed.

(** X11. In a network built by [addReaction], every reaction is consumed
    by exactly one state of the network and produced by exactly one: the
    numbers of reactions that [consumed_by] returns for the states add up
    to the number of reactions, and so do those of [produced_by]. *)
Theorem consumed_produced_count self :
  reachable self →
  sum_over (fun e => length (consumed_by self e)) (_enzymeStates self)
  = length (_reactions self)
  ∧ sum_over (fun e => length (produced_by self e)) (_enzymeStates self)
    = length (_reactions self).
Proof.
  intros Hs. pose proof (reachable_well_formed _ Hs) as Hwf.
  assert (NoDup (_enzymeStates self)) as Hnd.
  { clear Hwf. induction Hs as [|self reaction Hs IH]; [apply NoDup_nil_2|].
    destruct (addReaction_step reaction self)
      as [->|(_ & _ & -> & _)]; [done|]. by do 2 apply NoDup_add_state. }
  unfold consumed_by, produced_by. split.
  - apply (sum_over_filter_key from_state); [done|].
    intros r Hr. by apply (wf_states _ Hwf).
  - apply (sum_over_filter_key to_state); [done|].
    intros r Hr. by apply (wf_states _ Hwf).
Qed.

Lemma consumed_produced_count_witness :
  reachable net_cycle
  ∧ sum_over (fun e => length (consumed_by net_cycle e))
      (_enzymeStates net_cycle)
    = length (_reactions net_cycle)
  ∧ sum_over (fun e => length (produced_by net_cycle e))
      (_enzymeStates net_cycle)
    = length (_reactions net_cycle).
Proof.
  assert (reachable net_cycle) as H
    by exact (addReactions_reachable cycle Reactions_init reachable_init).
  split; [exact H|].
  exact (consumed_produced_count net_cycle H).
Defined.

(** ** Edges found by rate and by reaction *)

Lemma contains_Rate_registered self bi x :
  well_formed self →
  x ∈ _reactions self →
  bi ∈ _bidirectionalRates self →
  contains_Rate bi (Some (rate x)) = contains_reaction bi (Some x).
Proof.
  intros Hwf Hx Hbi.
  destruct (contains_reaction bi (Some x)) eqn:Hc.
  { simpl in *. apply orb_true_iff in Hc. apply orb_true_iff.
    destruct Hc as [Hc|Hc]; apply UnitReaction_eq_true in Hc as (_ & _ & Hc);
      [left|right]; by apply ReactionRate_eq_true. }
  apply not_true_iff_false. intros Hr. apply not_true_iff_false in Hc.
  apply Hc. clear Hc.
  destruct (wf_edges _ Hwf bi Hbi) as (Hf & Hv & _).
  simpl in *. apply orb_true_iff in Hr. apply orb_true_iff.
  destruct Hr as [Hr|Hr]; apply ReactionRate_eq_true in Hr;
    apply (NoDup_fmap_eq _ _ _ _ (wf_rates _ Hwf)) in Hr; try done;
    subst x; [left|right]; by apply UnitReaction_eq_true.
Qed.

(** X12. In a network built by [addReaction], an edge contains the rate
    of a registered reaction exactly when it contains the reaction: the
    search by rate of [linear_graph_matrix] finds the edges that have the
    reaction as a leg, the same edges that the check of
    [_add_bidirectionalRates] looks for. *)
Theorem contains_Rate_iff_contains_reaction self bi x :
  reachable self →
  x ∈ _reactions self →
  bi ∈ _bidirectionalRates self →
  contains_Rate bi (Some (rate x)) = contains_reaction bi (Some x).
Proof.
  intros Hwf%reachable_well_formed Hx Hbi.
  by apply (contains_Rate_registered self).
Qed.

Lemma contains_Rate_iff_contains_reaction_witness :
  reachable net_parallel
  ∧ AB1 ∈ _reactions net_parallel
  ∧ mkBiDirReaction AB3 BA2 ∈ _bidirectionalRates net_parallel
  ∧ contains_Rate (mkBiDirReaction AB3 BA2) (Some (rate AB1))
    = contains_reaction (mkBiDirReaction AB3 BA2) (Some AB1).
Proof.
  assert (reachable net_parallel) as H1
    by exact (addReactions_reachable parallel Reactions_init reachable_init).
  assert (AB1 ∈ _reactions net_parallel) as H2 by left.
  assert (mkBiDirReaction AB3 BA2 ∈ _bidirectionalRates net_parallel) as H3
    by (right; left).
  split; [exact H1|]. split; [exact H2|]. split; [exact H3|].
  exact (contains_Rate_iff_contains_reaction net_parallel
           (mkBiDirReaction AB3 BA2) AB1 H1 H2 H3).
Defined.

(** ** String forms *)

(** X13. When the constructor of a rate returns, the rate has the stripped
    name; it prints as that name alone exactly when it was built without a
    reactant or with the empty string as reactant, and otherwise as the
    name followed by the stripped reactant between brackets. *)
Theorem ReactionRate_init_str nm a r :
  ReactionRate_init nm a = Some (ret r) →
  name r = strip nm
  ∧ (ReactionRate_str r = strip nm ↔ a = None ∨ a = Some "")
  ∧ (∀ p, a = Some p → p ≠ "" →
       ReactionRate_str r = strip nm +:+ "[" +:+ strip p +:+ "]").
Proof.
  intros (Hn & _ & Hr)%ReactionRate_init_ret.
  unfold ReactionRate_str. rewrite Hn.
  destruct Hr as [[-> Ha]|(p & -> & Hp & _ & ->)].
  - split_and!; try done. intros p Hap Hp. by destruct Ha; simplify_eq.
  - split_and!; try done.
    + split; [|by intros [|[=]]].
      intros H. by apply append_eq_self in H.
    + by intros ? [= <-] _.
Qed.

Lemma ReactionRate_init_str_witness :
  ReactionRate_init " k1" (Some "A ")
  = Some (ret (mkReactionRate "k1" (Some "A")))
  ∧ name (mkReactionRate "k1" (Some "A")) = strip " k1"
  ∧ (ReactionRate_str (mkReactionRate "k1" (Some "A")) = strip " k1" ↔
     Some "A " = None ∨ Some "A " = Some "")
  ∧ (∀ p, Some "A " = Some p → p ≠ "" →
       ReactionRate_str (mkReactionRate "k1" (Some "A"))
       = strip " k1" +:+ "[" +:+ strip p +:+ "]").
Proof.
  assert (ReactionRate_init " k1" (Some "A ")
          = Some (ret (mkReactionRate "k1" (Some "A")))) as H
    by reflexivity.
  split; [exact H|].
  exact (ReactionRate_init_str " k1" (Some "A ") _ H).
Defined.



(** The constructors on some texts: blanks around a name are dropped, the
    empty reactant is no reactant, and a text of several symbols is not
    given a record. *)
Example constructors_on_texts :
  Enzymestate_init "E" = Some (ret E)
  ∧ Enzymestate_init " EA " = Some (ret EA)
  ∧ Enzymestate_init "EAB/EPQ" = Some (ret (mkEnzymestate "EAB/EPQ"))
  ∧ Enzymestate_init "" = Some (raise (ValueError "no symbols given"))
  ∧ Enzymestate_init "A B" = None
  ∧ ReactionRate_init "k-1" None = Some (ret (mkReactionRate "k-1" None))
  ∧ ReactionRate_init "k1" (Some "") = Some (ret (mkReactionRate "k1" None))
  ∧ ReactionRate_init "k1" (Some "A,B") = None.
Proof. by split_and!. Qed.

Lemma as_text_concat self :
  as_text self
  = String.concat (String "010"%char "")
      (UnitReaction_str <$> _reactions self).
Proof.
  unfold as_text.
  assert (∀ l acc,
            fold_left (fun res reac => res ++ [UnitReaction_str reac]) l acc
            = acc ++ (UnitReaction_str <$> l)) as ->.
  { induction l as [|x l IH]; intros acc; simpl.
    - by rewrite app_nil_r.
    - by rewrite IH, <- app_assoc. }
  done.
Qed.

Lemma string_app_assoc (a b c : string) :
  (a +:+ b) +:+ c = a +:+ (b +:+ c).
Proof.
  induction a as [|x a IH]; [done|].
  change (String x ((a +:+ b) +:+ c) = String x (a +:+ (b +:+ c))).
  by rewrite IH.
Qed.

Lemma concat_snoc (sep : string) (l : list string) (x y : string) :
  String.concat sep ((x :: l) ++ [y]) = String.concat sep (x :: l) +:+ sep +:+ y.
Proof.
  revert x. induction l as [|z l IH]; intros x.
  - done.
  - change (String.concat sep ((x :: z :: l) ++ [y]))
      with (x +:+ sep +:+ String.concat sep ((z :: l) ++ [y])).
    rewrite IH.
    change (String.concat sep (x :: z :: l))
      with (x +:+ sep +:+ String.concat sep (z :: l)).
    by rewrite !string_app_assoc.
Qed.

(** X14. A call of [addReaction] that returns adds the string form of the
    reaction to [as_text] as a last line: after a newline when the network
    had reactions, alone when it had none. *)
Theorem as_text_addReaction reaction self s' :
  addReaction reaction self = (s', ret tt) →
  as_text s'
  = match _reactions self with
    | [] => UnitReaction_str reaction
    | _ :: _ =>
        as_text self +:+ String "010"%char "" +:+ UnitReaction_str reaction
    end.
Proof.
  intros (_ & Hrs & _)%addReaction_ok_inv.
  rewrite !as_text_concat, Hrs, fmap_app.
  destruct (_reactions self) as [|x l]; [done|].
  rewrite fmap_cons. apply concat_snoc.
Qed.

Lemma as_text_addReaction_witness :
  addReaction R2 net_R1 = (net_R1_R2, ret tt)
  ∧ as_text net_R1_R2
    = match _reactions net_R1 with
      | [] => UnitReaction_str R2
      | _ :: _ =>
          as_text net_R1 +:+ String "010"%char "" +:+ UnitReaction_str R2
      end.
Proof.
  assert (addReaction R2 net_R1 = (net_R1_R2, ret tt)) as H by reflexivity.
  split; [exact H|].
  exact (as_text_addReaction R2 net_R1 net_R1_R2 H).
Defined.

Example as_text_R1_R2 :
  as_text net_R1_R2
  = "E " +:+ String "009"%char " --k1--> " +:+ String "009"%char " EA"
    +:+ String "010"%char ""
    +:+ "EA " +:+ String "009"%char " --k-1--> " +:+ String "009"%char " E".
Proof. reflexivity. Qed.

(** ** The linear graph matrix of a network of reversible reactions *)

Lemma pair_has_edge rs :
  ∀ self, addReactions rs Reactions_init = (self, ret tt) →
  ∀ r v, r ∈ rs → v ∈ rs →
    from_state v = to_state r → to_state v = from_state r →
    mkBiDirReaction r v ∈ _bidirectionalRates self
    ∨ mkBiDirReaction v r ∈ _bidirectionalRates self.
Proof.
  induction rs as [|x rs IH] using rev_ind; intros self Hok r v Hr Hv Hf Ht.
  { by apply elem_of_nil in Hr. }
  apply addReactions_snoc_ok in Hok as (s1 & Hs1 & Hadd).
  destruct (addReactions_ok_inv _ _ _ Hs1) as (Hrs & _). simpl in Hrs.
  apply addReaction_ok_inv in Hadd as (_ & Hrs' & _ & Hedges).
  rewrite Hrs in Hrs'.
  assert (∀ p, p ∈ rs ++ [x] →
               from_state p = to_state x → to_state p = from_state x →
               mkBiDirReaction x p ∈ _bidirectionalRates self) as Hnew.
  { intros p Hp Hpf Hpt.
    assert (p ∈ matching self (to_state x) (from_state x)) as Hin.
    { apply elem_of_matching. by rewrite Hrs'. }
    destruct Hedges as [[Hnil _]|(p' & Hp' & ->)].
    - rewrite Hnil in Hin. by apply elem_of_nil in Hin.
    - rewrite Hp' in Hin. apply list_elem_of_singleton in Hin as ->.
      rewrite elem_of_app, list_elem_of_singleton. auto. }
  apply elem_of_app in Hr as [Hr| ->%list_elem_of_singleton].
  - apply elem_of_app in Hv as [Hv| ->%list_elem_of_singleton].
    + assert (∀ bi, bi ∈ _bidirectionalRates s1 →
                    bi ∈ _bidirectionalRates self) as Hmono.
      { intros bi Hbi.
        destruct Hedges as [[_ ->]|(p' & _ & ->)]; [done|].
        rewrite elem_of_app. auto. }
      destruct (IH s1 Hs1 r v Hr Hv Hf Ht) as [H|H]; [left|right];
        by apply Hmono.
    + right. apply Hnew; [|done..]. rewrite elem_of_app. auto.
  - left. by apply Hnew.
Qed.

(** X15. After a sequence of calls of [addReaction] that all return, any
    two registered reactions that run in opposite directions between two
    states are the two legs of an edge, whichever was added first. *)
Theorem reversible_pair_is_edge rs self r v :
  addReactions rs Reactions_init = (self, ret tt) →
  r ∈ rs → v ∈ rs →
  from_state v = to_state r → to_state v = from_state r →
  mkBiDirReaction r v ∈ _bidirectionalRates self
  ∨ mkBiDirReaction v r ∈ _bidirectionalRates self.
Proof. intros Hok. by apply pair_has_edge. Qed.

Lemma reversible_pair_is_edge_witness :
  addReactions parallel Reactions_init = (net_parallel, ret tt)
  ∧ BA2 ∈ parallel ∧ AB3 ∈ parallel
  ∧ from_state AB3 = to_state BA2 ∧ to_state AB3 = from_state BA2
  ∧ (mkBiDirReaction BA2 AB3 ∈ _bidirectionalRates net_parallel
     ∨ mkBiDirReaction AB3 BA2 ∈ _bidirectionalRates net_parallel).
Proof.
  assert (addReactions parallel Reactions_init = (net_parallel, ret tt))
    as H1 by reflexivity.
  assert (BA2 ∈ parallel) as H2 by (right; left).
  assert (AB3 ∈ parallel) as H3 by (right; right; left).
  assert (from_state AB3 = to_state BA2) as H4 by reflexivity.
  assert (to_state AB3 = from_state BA2) as H5 by reflexivity.
  split; [exact H1|]. split; [exact H2|]. split; [exact H3|].
  split; [exact H4|]. split; [exact H5|].
  exact (reversible_pair_is_edge parallel net_parallel BA2 AB3
           H1 H2 H3 H4 H5).
Defined.

Lemma traverse_imap_ret {A B C} (f : C → result B) (l : list A) :
  ∀ (h : nat → A → C) (g : nat → A → B),
    (∀ k x, l !! k = Some x → f (h k x) = ret (g k x)) →
    traverse f (imap h l) = ret (imap g l).
Proof.
  induction l as [|x l IH]; intros h g Hfg; simpl; [done|].
  rewrite (Hfg 0 x) by done. simpl.
  rewrite (IH (h ∘ S) (g ∘ S)); [done|].
  intros k y Hk. by apply (Hfg (S k)).
Qed.

Lemma filter_enumerate_length {A} (P : A → bool) (l : list A) :
  ∀ h : nat → A → nat * A,
    (∀ k x, (h k x).2 = x) →
    length (List.filter (fun p => P p.2) (imap h l))
    = length (List.filter P l).
Proof.
  induction l as [|x l IH]; intros h Hh; simpl; [done|].
  rewrite Hh. destruct (P x); simpl; rewrite (IH (h ∘ S)); try done;
    intros k y; apply Hh.
Qed.

(** The slots of the edges that have the rate of a registered reaction,
    when no two reactions have the same endpoints: at most one. *)
Lemma edges_of_rate_at_most_one rs self x :
  NoDup (endpoints <$> rs) →
  addReactions rs Reactions_init = (self, ret tt) →
  x ∈ rs →
  length (List.filter
            (fun biDirect : nat * BiDirReaction =>
               contains_Rate biDirect.2 (Some (rate x)))
            (enumerate (_bidirectionalRates self))) ≤ 1.
Proof.
  intros Hnd Hok Hx.
  pose proof (addReactions_reachable rs Reactions_init reachable_init) as Hwf.
  rewrite Hok in Hwf. simpl in Hwf. apply reachable_well_formed in Hwf.
  destruct (addReactions_ok_inv _ _ _ Hok) as (Hrs & _). simpl in Hrs.
  unfold enumerate.
  rewrite (filter_enumerate_length
             (fun bi => contains_Rate bi (Some (rate x)))) by done.
  rewrite (filter_ext_in _ (fun bi => contains_reaction bi (Some x))).
  - apply (edges_containing_le_1 rs Hnd self Hok x).
  - intros bi Hbi%list_elem_of_In.
    apply (contains_Rate_registered self); [done| |done]. by rewrite Hrs.
Qed.

Lemma elem_of_enumerate_filter {A} (P : A → bool) (l : list A) k x :
  l !! k = Some x → P x = true →
  (k, x) ∈ List.filter (fun p : nat * A => P p.2) (enumerate l).
Proof.
  intros Hk HP. apply elem_of_filter_bool. split; [|done].
  by apply (elem_of_lookup_imap_2 pair).
Qed.

(** The cell [i][j] of the linear graph matrix when every reaction has its
    reverse and no two reactions have the same endpoints. *)
Lemma linear_cell_paired rs self kin i j a b :
  NoDup (endpoints <$> rs) →
  addReactions rs Reactions_init = (self, ret tt) →
  (∀ r, r ∈ rs →
     ∃ v, v ∈ rs ∧ from_state v = to_state r ∧ to_state v = from_state r) →
  kinetic_matrix self = ret kin →
  _enzymeStates self !! i = Some a →
  _enzymeStates self !! j = Some b →
  ∃ c, linear_cell self kin i j = ret c
       ∧ match matching self a b with
         | [] => c = None
         | r :: _ =>
             ∃ k bi v,
               c = Some (k, bi)
               ∧ _bidirectionalRates self !! k = Some bi
               ∧ List.filter
                   (fun biDirect : nat * BiDirReaction =>
                      contains_Rate biDirect.2 (Some (rate r)))
                   (enumerate (_bidirectionalRates self))
                 = [(k, bi)]
               ∧ contains_reaction bi (Some r) = true
               ∧ v ∈ rs ∧ from_state v = b ∧ to_state v = a
               ∧ contains_Rate bi (Some (rate v)) = true
         end.
Proof.
  intros Hnd Hok Hrev Hkin Hi Hj.
  destruct (addReactions_ok_inv _ _ _ Hok) as (Hrs & _). simpl in Hrs.
  destruct (kinetic_matrix_ret self kin Hkin) as (Hlen & Hrows & Hcell).
  destruct (Hcell i j a b Hi Hj) as [_ Hij].
  destruct (lookup_lt_is_Some_2 kin i) as [row Hrow].
  { rewrite Hlen. by eapply lookup_lt_Some. }
  destruct (lookup_lt_is_Some_2 row j) as [c0 Hc0].
  { rewrite (Hrows i row Hrow). by eapply lookup_lt_Some. }
  unfold cell in Hij. rewrite Hrow, Hc0 in Hij. subst c0.
  unfold linear_cell, getitem. rewrite Hrow. simpl. rewrite Hc0. simpl.
  destruct (matching self a b) as [|r l] eqn:Hm; simpl; [by eexists|].
  assert (r ∈ matching self a b) as Hr by (rewrite Hm; left).
  apply elem_of_matching in Hr as (Hr & Hra & Hrb). rewrite Hrs in Hr.
  destruct (Hrev r Hr) as (v & Hv & Hvf & Hvt).
  assert (∃ bi, bi ∈ _bidirectionalRates self
                ∧ contains_reaction bi (Some r) = true
                ∧ contains_Rate bi (Some (rate r)) = true
                ∧ contains_Rate bi (Some (rate v)) = true)
    as (bi & Hbi & Hcr & Hrr & Hrv).
  { assert (UnitReaction_eq r r = true) as Hrefl
      by by apply UnitReaction_eq_true.
    assert (ReactionRate_eq (rate r) (rate r) = true) as Hr1
      by by apply ReactionRate_eq_true.
    assert (ReactionRate_eq (rate v) (rate v) = true) as Hr2
      by by apply ReactionRate_eq_true.
    destruct (pair_has_edge rs self Hok r v Hr Hv Hvf Hvt) as [H|H];
      eexists; (split; [exact H|]); simpl;
      rewrite Hrefl, Hr1, Hr2, ?orb_true_r; done. }
  apply list_elem_of_lookup in Hbi as [k Hk].
  pose proof (elem_of_enumerate_filter
                (fun bi => contains_Rate bi (Some (rate r))) _ k bi Hk Hrr)
    as Hin.
  pose proof (edges_of_rate_at_most_one rs self r Hnd Hok Hr) as Hone.
  destruct (List.filter _ (enumerate _)) as [|p [|p' l']] eqn:Hfl;
    [by apply elem_of_nil in Hin| |simpl in Hone; lia].
  apply list_elem_of_singleton in Hin as <-. simpl.
  eexists. split; [done|]. exists k, bi, v.
  split_and!; try done; congruence.
Qed.

Lemma kinetic_matrix_ret_of_NoDup self :
  NoDup (endpoints <$> _reactions self) →
  ∃ kin, kinetic_matrix self = ret kin.
Proof.
  intros Hnd. rewrite kinetic_matrix_table.
  assert (forallb
            (fun a =>
               forallb (fun b => length (matching self a b) <=? 1)
                 (_enzymeStates self))
            (_enzymeStates self) = true) as ->; [|by eexists].
  apply forallb_forall. intros a _. apply forallb_forall. intros b _.
  by apply Nat.leb_le, matching_length_distinct.
Qed.

Lemma linear_graph_matrix_paired_ret rs self kin :
  NoDup (endpoints <$> rs) →
  addReactions rs Reactions_init = (self, ret tt) →
  (∀ r, r ∈ rs →
     ∃ v, v ∈ rs ∧ from_state v = to_state r ∧ to_state v = from_state r) →
  kinetic_matrix self = ret kin →
  linear_graph_matrix self
  = ret (imap (fun i (_ : Enzymestate) =>
                 imap (fun j (_ : Enzymestate) =>
                         match linear_cell self kin i j with
                         | inr c => c
                         | inl _ => None
                         end)
                   (_enzymeStates self))
           (_enzymeStates self)).
Proof.
  intros Hnd Hok Hrev Hkin.
  rewrite linear_graph_matrix_traverse, Hkin. simpl. unfold enumerate.
  apply traverse_imap_ret. intros i a Hi.
  apply traverse_imap_ret. intros j b Hj.
  by destruct (linear_cell_paired rs self kin i j a b Hnd Hok Hrev
                 Hkin Hi Hj) as (c & -> & _).
Qed.

(** X16. After a sequence of calls of [addReaction] that all return, when
    no two reactions have the same ordered endpoints and every reaction
    has its reverse in the sequence, [linear_graph_matrix] returns a table
    with one row and one column per state.  The cell of two states is
    absent when no reaction joins them; otherwise it holds an edge of
    [_bidirectionalRates], with its slot, that contains the reaction from
    the first to the second.  The table is symmetric: the cells [i][j]
    and [j][i] hold the same object. *)
Theorem linear_graph_matrix_paired rs self :
  NoDup (endpoints <$> rs) →
  addReactions rs Reactions_init = (self, ret tt) →
  (∀ r, r ∈ rs →
     ∃ v, v ∈ rs ∧ from_state v = to_state r ∧ to_state v = from_state r) →
  ∃ m,
    linear_graph_matrix self = ret m
    ∧ length m = length (_enzymeStates self)
    ∧ (∀ i row, m !! i = Some row → length row = length (_enzymeStates self))
    ∧ (∀ i j a b,
         _enzymeStates self !! i = Some a →
         _enzymeStates self !! j = Some b →
         match matching self a b with
         | [] => cell m i j = None
         | r :: _ =>
             ∃ k bi, cell m i j = Some (k, bi)
                     ∧ _bidirectionalRates self !! k = Some bi
                     ∧ contains_reaction bi (Some r) = true
         end)
    ∧ (∀ i j, cell m i j = cell m j i).
Proof.
  intros Hnd Hok Hrev.
  destruct (addReactions_ok_inv _ _ _ Hok) as (Hrs & _). simpl in Hrs.
  destruct (kinetic_matrix_ret_of_NoDup self) as [kin Hkin];
    [by rewrite Hrs|].
  pose (V := fun i j =>
               match linear_cell self kin i j with
               | inr c => c
               | inl _ => None
               end).
  pose proof (fun i j a b Hi Hj =>
                linear_cell_paired rs self kin i j a b Hnd Hok Hrev
                  Hkin Hi Hj) as Hcell.
  set (m := imap (fun i (_ : Enzymestate) =>
                    imap (fun j (_ : Enzymestate) => V i j)
                      (_enzymeStates self))
              (_enzymeStates self)).
  assert (∀ i j a b,
            _enzymeStates self !! i = Some a →
            _enzymeStates self !! j = Some b →
            cell m i j = V i j) as Hm.
  { intros i j a b Hi Hj. unfold cell, m.
    rewrite list_lookup_imap, Hi. simpl.
    by rewrite list_lookup_imap, Hj. }
  assert (∀ i j, _enzymeStates self !! i = None ∨
                 _enzymeStates self !! j = None → cell m i j = None)
    as Hout.
  { intros i j Hij. unfold cell, m. rewrite list_lookup_imap.
    destruct (_enzymeStates self !! i) as [a|]; simpl; [|done].
    rewrite list_lookup_imap. destruct Hij as [Hn|Hn]; [done|].
    by rewrite Hn. }
  exists m. split_and!.
  - by apply (linear_graph_matrix_paired_ret rs).
  - unfold m. by rewrite length_imap.
  - intros i row. unfold m. rewrite list_lookup_imap.
    destruct (_ !! i); intros [= <-]. by rewrite length_imap.
  - intros i j a b Hi Hj. rewrite (Hm i j a b Hi Hj).
    destruct (Hcell i j a b Hi Hj) as (c & Hc & Hmatch).
    unfold V. rewrite Hc.
    destruct (matching self a b) as [|r l]; [done|].
    destruct Hmatch as (k & bi & v & -> & Hk & _ & Hcr & _).
    by exists k, bi.
  - intros i j.
    destruct (_enzymeStates self !! i) as [a|] eqn:Hi;
      [|by rewrite !Hout by auto].
    destruct (_enzymeStates self !! j) as [b|] eqn:Hj;
      [|by rewrite !Hout by auto].
    rewrite (Hm i j a b Hi Hj), (Hm j i b a Hj Hi). unfold V.
    destruct (Hcell i j a b Hi Hj) as (c & -> & Hab).
    destruct (Hcell j i b a Hj Hi) as (c' & -> & Hba).
    destruct (matching self a b) as [|r l] eqn:Hmab.
    + subst c. destruct (matching self b a) as [|r' l'] eqn:Hmba; [done|].
      destruct Hba as (_ & _ & v & _ & _ & _ & _ & Hv & Hvf & Hvt & _).
      assert (v ∈ matching self a b) as Hin
        by (apply elem_of_matching; by rewrite Hrs).
      rewrite Hmab in Hin. by apply elem_of_nil in Hin.
    + destruct Hab as (k & bi & v & -> & Hk & _ & _ & Hv & Hvf & Hvt & Hrv).
      assert (v ∈ matching self b a) as Hin
        by (apply elem_of_matching; by rewrite Hrs).
      pose proof (matching_length_distinct self b a) as Hlen.
      rewrite Hrs in Hlen. specialize (Hlen Hnd).
      destruct (matching self b a) as [|r' [|r'' l']] eqn:Hmba;
        [by apply elem_of_nil in Hin| |simpl in Hlen; lia].
      apply list_elem_of_singleton in Hin as <-.
      destruct Hba as (k' & bi' & _ & -> & _ & Hfl & _).
      pose proof (elem_of_enumerate_filter
                    (fun bi => contains_Rate bi (Some (rate v)))
                    _ k bi Hk Hrv) as Hin.
      cbv beta in Hin. rewrite Hfl in Hin.
      by apply list_elem_of_singleton in Hin as ->.
Qed.

Lemma linear_graph_matrix_paired_witness :
  NoDup (endpoints <$> [R1; R2])
  ∧ addReactions [R1; R2] Reactions_init = (net_R1_R2, ret tt)
  ∧ (∀ r, r ∈ [R1; R2] →
       ∃ v, v ∈ [R1; R2] ∧ from_state v = to_state r
            ∧ to_state v = from_state r)
  ∧ ∃ m,
      linear_graph_matrix net_R1_R2 = ret m
      ∧ length m = length (_enzymeStates net_R1_R2)
      ∧ (∀ i row, m !! i = Some row →
           length row = length (_enzymeStates net_R1_R2))
      ∧ (∀ i j a b,
           _enzymeStates net_R1_R2 !! i = Some a →
           _enzymeStates net_R1_R2 !! j = Some b →
           match matching net_R1_R2 a b with
           | [] => cell m i j = None
           | r :: _ =>
               ∃ k bi, cell m i j = Some (k, bi)
                       ∧ _bidirectionalRates net_R1_R2 !! k = Some bi
                       ∧ contains_reaction bi (Some r) = true
           end)
      ∧ (∀ i j, cell m i j = cell m j i).
Proof.
  assert (NoDup (endpoints <$> [R1; R2])) as H1.
  { simpl.
    repeat (apply NoDup_cons_2;
            [rewrite ?elem_of_cons, elem_of_nil; intuition discriminate|]).
    apply NoDup_nil_2. }
  assert (addReactions [R1; R2] Reactions_init = (net_R1_R2, ret tt)) as H2
    by reflexivity.
  assert (∀ r, r ∈ [R1; R2] →
            ∃ v, v ∈ [R1; R2] ∧ from_state v = to_state r
                 ∧ to_state v = from_state r) as H3.
  { intros r Hr. apply elem_of_cons in Hr as [->|Hr].
    - exists R2. split; [right; left|split; reflexivity].
    - apply list_elem_of_singleton in Hr as ->.
      exists R1. split; [left|split; reflexivity]. }
  split; [exact H1|]. split; [exact H2|]. split; [exact H3|].
  exact (linear_graph_matrix_paired [R1; R2] net_R1_R2 H1 H2 H3).
Defined.

Lemma traverse_ret_inv {A B} (f : A → result B) (l : list A) ys x :
  traverse f l = ret ys → x ∈ l → ∃ y, f x = ret y.
Proof.
  revert ys. induction l as [|z l IH]; intros ys Hret Hx.
  { by apply elem_of_nil in Hx. }
  simpl in Hret. destruct (f z) as [e|y] eqn:Hz; simpl in Hret; [done|].
  destruct (traverse f l) as [e|ys'] eqn:Hl; simpl in Hret; [done|].
  apply elem_of_cons in Hx as [->|Hx]; [by exists y|]. by eapply IH.
Qed.

(** A linear graph matrix that is returned leaves no reaction without its
    reverse. *)
Lemma linear_graph_matrix_ret_reverse self m r :
  well_formed self →
  linear_graph_matrix self = ret m →
  r ∈ _reactions self →
  ∃ v, v ∈ matching self (to_state r) (from_state r).
Proof.
  intros Hwf Hret Hr. rewrite linear_graph_matrix_traverse in Hret.
  destruct (kinetic_matrix self) as [e|kin] eqn:Hkin; [done|].
  simpl in Hret.
  destruct (wf_states _ Hwf r Hr) as [[i Hi]%list_elem_of_lookup
                                       [j Hj]%list_elem_of_lookup].
  eapply (traverse_ret_inv _ _ _ (i, from_state r)) in Hret as [row Hrow];
    [|by apply (elem_of_lookup_imap_2 pair)].
  eapply (traverse_ret_inv _ _ _ (j, to_state r)) in Hrow as [c Hc];
    [|by apply (elem_of_lookup_imap_2 pair)].
  destruct (kinetic_matrix_ret self kin Hkin) as (_ & _ & Hcell).
  destruct (Hcell i j _ _ Hi Hj) as [Hone Hij].
  assert (r ∈ matching self (from_state r) (to_state r)) as Hin
    by by apply elem_of_matching.
  destruct (matching self (from_state r) (to_state r)) as [|x [|y l]];
    [by apply elem_of_nil in Hin| |simpl in Hone; lia].
  apply list_elem_of_singleton in Hin as <-. simpl in Hij.
  unfold linear_cell, getitem, cell in *.
  destruct (kin !! i) as [krow|]; simpl in *; [|done].
  destruct (krow !! j) as [c0|]; simpl in *; [|done]. subst c0.
  destruct (List.filter _ _) as [|[k bi] l'] eqn:Hfl; [done|].
  assert ((k, bi) ∈ List.filter
            (fun biDirect : nat * BiDirReaction =>
               contains_Rate biDirect.2 (Some (rate r)))
            (enumerate (_bidirectionalRates self))) as Hbi
    by (rewrite Hfl; left).
  apply elem_of_filter_bool in Hbi as [Hbi Hrate].
  apply elem_of_lookup_imap_1 in Hbi as (k' & bi' & [= -> ->] & Hbi).
  apply list_elem_of_lookup_2 in Hbi.
  by apply (edge_of_rate_has_reverse self r bi').
Qed.

(** X17. After a sequence of calls of [addReaction] that all return,
    [linear_graph_matrix] returns a table exactly when no two reactions of
    the sequence have the same ordered endpoints and every reaction has
    its reverse in the sequence; otherwise it raises. *)
Theorem linear_graph_matrix_returns_iff rs self :
  addReactions rs Reactions_init = (self, ret tt) →
  (∃ m, linear_graph_matrix self = ret m) ↔
  NoDup (endpoints <$> rs)
  ∧ ∀ r, r ∈ rs →
      ∃ v, v ∈ rs ∧ from_state v = to_state r ∧ to_state v = from_state r.
Proof.
  intros Hok.
  pose proof (addReactions_reachable rs Reactions_init reachable_init) as Hwf.
  rewrite Hok in Hwf. simpl in Hwf. apply reachable_well_formed in Hwf.
  destruct (addReactions_ok_inv _ _ _ Hok) as (Hrs & _). simpl in Hrs.
  split.
  - intros [m Hm]. split.
    + rewrite <- Hrs. apply NoDup_endpoints_of_matching. intros r Hr.
      rewrite linear_graph_matrix_traverse in Hm.
      destruct (kinetic_matrix self) as [e|kin] eqn:Hkin; [done|].
      destruct (wf_states _ Hwf r Hr) as [[i Hi]%list_elem_of_lookup
                                           [j Hj]%list_elem_of_lookup].
      destruct (kinetic_matrix_ret self kin Hkin) as (_ & _ & Hcell).
      by destruct (Hcell i j _ _ Hi Hj).
    + intros r Hr. rewrite <- Hrs in Hr.
      destruct (linear_graph_matrix_ret_reverse self m r Hwf Hm Hr)
        as [v Hv].
      apply elem_of_matching in Hv as (Hv & Hf & Ht).
      exists v. by rewrite <- Hrs.
  - intros [Hnd Hrev].
    destruct (kinetic_matrix_ret_of_NoDup self) as [kin Hkin];
      [by rewrite Hrs|].
    eexists. by apply (linear_graph_matrix_paired_ret rs self kin).
Qed.

Lemma linear_graph_matrix_returns_iff_witness :
  addReactions cycle Reactions_init = (net_cycle, ret tt)
  ∧ ((∃ m, linear_graph_matrix net_cycle = ret m) ↔
     NoDup (endpoints <$> cycle)
     ∧ ∀ r, r ∈ cycle →
         ∃ v, v ∈ cycle ∧ from_state v = to_state r
              ∧ to_state v = from_state r).
Proof.
  assert (addReactions cycle Reactions_init = (net_cycle, ret tt)) as H
    by reflexivity.
  split; [exact H|].
  exact (linear_graph_matrix_returns_iff cycle net_cycle H).
Defined.

(** ** When [addReaction] accepts a reaction *)

Lemma matching_snoc self reaction sts es a b :
  matching {| _reactions := _reactions self ++ [reaction];
              _enzymeStates := sts;
              _bidirectionalRates := es |} a b
  = matching self a b
    ++ (if Enzymestate_eq (from_state reaction) a
           && Enzymestate_eq (to_state reaction) b
        then [reaction] else []).
Proof. unfold matching. simpl. by rewrite List.filter_app. Qed.

(** X18. On a network built by [addReaction], a call of [addReaction] is
    decided by two counts: it raises the error of a rate already defined
    when a registered reaction has the rate name; otherwise it returns
    when at most one reaction runs the opposite way, the new reaction
    counting as one if it joins a state to itself, and raises the error of
    several reverse reactions when there are more. *)
Theorem addReaction_result reaction self :
  reachable self →
  (addReaction reaction self).2
  = if negb (length (reaction_from_Rate self (rate reaction)) =? 0)
    then raise DuplicateRate
    else if length (matching self (to_state reaction) (from_state reaction))
            + (if Enzymestate_eq (from_state reaction) (to_state reaction)
               then 1 else 0) <=? 1
         then ret tt
         else raise MultipleReverseReactions.
Proof.
  intros Hwf%reachable_well_formed. rewrite addReaction_eq.
  destruct (reaction_from_Rate self (rate reaction)) as [|x l] eqn:Hnew;
    [|done].
  cbn [length Nat.ltb Nat.leb Nat.eqb negb]. cbv zeta.
  rewrite new_rate_not_paired by done. rewrite matching_snoc.
  assert (Enzymestate_eq (from_state reaction) (to_state reaction)
          && Enzymestate_eq (to_state reaction) (from_state reaction)
          = Enzymestate_eq (from_state reaction) (to_state reaction)) as ->.
  { destruct (Enzymestate_eq (from_state reaction) (to_state reaction))
      eqn:Heq; [|done].
    apply Enzymestate_eq_true in Heq as ->. by rewrite Enzymestate_eq_refl. }
  destruct (matching self _ _) as [|v [|v' l]];
    by destruct (Enzymestate_eq _ _).
Qed.

Lemma addReaction_result_witness :
  reachable net_loop0
  ∧ (addReaction loop1 net_loop0).2
    = if negb (length (reaction_from_Rate net_loop0 (rate loop1)) =? 0)
      then raise DuplicateRate
      else if length (matching net_loop0 (to_state loop1) (from_state loop1))
              + (if Enzymestate_eq (from_state loop1) (to_state loop1)
                 then 1 else 0) <=? 1
           then ret tt
           else raise MultipleReverseReactions.
Proof.
  assert (reachable net_loop0) as H
    by exact (addReactions_reachable [loop0] Reactions_init reachable_init).
  split; [exact H|].
  exact (addReaction_result loop1 net_loop0 H).
Defined.

(** ** Equality of reactions *)

(** X19. Equality of reactions is reflexive, symmetric and transitive, and
    does not see the reactant of the rate: two reactions with the same
    endpoints and the same rate name are equal whatever the reactants, so
    that an edge contains the one exactly when it contains the other. *)
Theorem UnitReaction_eq_equivalence :
  (∀ x, UnitReaction_eq x x = true)
  ∧ (∀ x y, UnitReaction_eq x y = UnitReaction_eq y x)
  ∧ (∀ x y z,
       UnitReaction_eq x y = true → UnitReaction_eq y z = true →
       UnitReaction_eq x z = true)
  ∧ (∀ a b nm p q,
       UnitReaction_eq (mkUnitReaction a (mkReactionRate nm p) b)
         (mkUnitReaction a (mkReactionRate nm q) b) = true)
  ∧ (∀ bi x y,
       UnitReaction_eq x y = true →
       contains_reaction bi (Some x) = contains_reaction bi (Some y)).
Proof.
  assert (∀ x y, UnitReaction_eq x y = UnitReaction_eq y x) as Hsym.
  { intros x y. apply eq_true_iff_eq. rewrite !UnitReaction_eq_true.
    intuition congruence. }
  assert (∀ x y z,
            UnitReaction_eq x y = true → UnitReaction_eq y z = true →
            UnitReaction_eq x z = true) as Htrans.
  { intros x y z. rewrite !UnitReaction_eq_true. intuition congruence. }
  split_and!; try done.
  - intros x. by apply UnitReaction_eq_true.
  - intros a b nm p q. by apply UnitReaction_eq_true.
  - intros bi x y Hxy. simpl.
    assert (∀ z, UnitReaction_eq x z = UnitReaction_eq y z) as Hz.
    { intros z. apply eq_true_iff_eq. split; intros H.
      - apply (Htrans y x z); [by rewrite Hsym|done].
      - by apply (Htrans x y z). }
    by rewrite !Hz.
Qed.
